(** * Undo/redo command manager of [7_smart_pointers/smart_pointer_examples.cpp]

    A shallow embedding of Example 6 (classes [Command], [AddCommand],
    [MultiplyCommand] and [CommandManager]) and the properties of its
    undo and redo stacks.

    - An [int] is a 32-bit signed integer, carried as a [Z] inside
      [INT_MIN, INT_MAX].  Signed overflow and division by zero have no
      defined behaviour in C++; both are made explicit as [Undefined].
    - A command holds an [int&]: the referenced variables live in a memory
      indexed by addresses, so several commands (and several managers) can
      share one target.
    - [std::stack] is a list whose head is the top.
    - Each method is a function of the memory that either returns (with the
      new memory and the lines it wrote to [cout]) or is undefined.

    The other examples of the file are embedded in the same way:
    [DatabaseConnection], the shapes and [createShape], [Subject] and its
    observers, [TreeNode] and [Cache].  An object owned through
    [shared_ptr] is an entry of a map of live objects, keyed by the
    identity of its control block; a [weak_ptr] is such an identity, and has
    expired when the map no longer holds it. *)

From Stdlib Require Import ZArith Lia.
From stdpp Require Import base strings list gmap pretty.

Open Scope Z_scope.

(** ** The [int] type *)

Definition INT_MIN : Z := -2147483648.
Definition INT_MAX : Z := 2147483647.

Definition representable (z : Z) : bool := (INT_MIN <=? z) && (z <=? INT_MAX).

(** Why an evaluation has no defined behaviour. *)
Inductive fault : Type :=
| SignedOverflow
| DivideByZero
| DanglingReference.

(** Addresses of the caller-owned [int] variables, and the memory holding
    them. *)
Abbreviation addr := nat (only parsing).
Abbreviation memory := (gmap nat Z) (only parsing).

(** Every variable holds a value of type [int]. *)
Definition valid_memory (mem : memory) : Prop :=
  map_Forall (λ _ v, representable v = true) mem.

(** ** Outcomes and the monad of methods *)

Inductive outcome (A : Type) : Type :=
| Returns (a : A) (mem : memory) (out : list string)
| Undefined (why : fault).
Arguments Returns {A} a mem out.
Arguments Undefined {A} why.

Definition M (A : Type) : Type := memory → outcome A.

Definition ret {A} (a : A) : M A := λ mem, Returns a mem [].

Definition bind {A B} (m : M A) (f : A → M B) : M B := λ mem,
  match m mem with
  | Returns a mem1 out1 =>
      match f a mem1 with
      | Returns b mem2 out2 => Returns b mem2 (out1 ++ out2)
      | Undefined why => Undefined why
      end
  | Undefined why => Undefined why
  end.

Notation "x ←' m ;; k" := (bind m (λ x, k))
  (at level 100, m at next level, right associativity, only parsing).
Notation "m ;;' k" := (bind m (λ _, k))
  (at level 100, right associativity, only parsing).

(** Reading and writing through an [int&]. *)
Definition load (r : addr) : M Z := λ mem,
  match mem !! r with
  | Some v => Returns v mem []
  | None => Undefined DanglingReference
  end.

Definition store (r : addr) (v : Z) : M unit := λ mem,
  match mem !! r with
  | Some _ => Returns tt (<[r:=v]> mem) []
  | None => Undefined DanglingReference
  end.

(** [cout << ... << endl]: one line of output. *)
Definition print_line (s : string) : M unit := λ mem, Returns tt mem [s].

(** The result of an arithmetic operation on [int]s, when it has one. *)
Definition to_int (z : Z) : M Z := λ mem,
  if representable z then Returns z mem [] else Undefined SignedOverflow.

Definition int_add (a b : Z) : M Z := to_int (a + b).
Definition int_sub (a b : Z) : M Z := to_int (a - b).
Definition int_mul (a b : Z) : M Z := to_int (a * b).
(** [/] truncates toward zero; [INT_MIN / -1] overflows. *)
Definition int_div (a b : Z) : M Z := λ mem,
  if b =? 0 then Undefined DivideByZero else to_int (a ÷ b) mem.

(** [std::to_string] and [operator<<] on an [int]. *)
Definition to_string (z : Z) : string := pretty z.

(** ** Commands *)

(** [class Command] and its two subclasses; virtual dispatch is the match
    on the constructor. *)
Inductive Command : Type :=
| AddCommand (value : addr) (amount : Z)
| MultiplyCommand (value : addr) (factor : Z).

Definition AddCommand_execute (value : addr) (amount : Z) : M unit :=
  v ←' load value ;;
  v' ←' int_add v amount ;;
  store value v' ;;'
  now ←' load value ;;
  print_line ("  Executed: Add " +:+ to_string amount
              +:+ " (result: " +:+ to_string now +:+ ")").

Definition AddCommand_undo (value : addr) (amount : Z) : M unit :=
  v ←' load value ;;
  v' ←' int_sub v amount ;;
  store value v' ;;'
  now ←' load value ;;
  print_line ("  Undone: Add " +:+ to_string amount
              +:+ " (result: " +:+ to_string now +:+ ")").

Definition AddCommand_describe (amount : Z) : string :=
  "Add " +:+ to_string amount.

Definition MultiplyCommand_execute (value : addr) (factor : Z) : M unit :=
  v ←' load value ;;
  v' ←' int_mul v factor ;;
  store value v' ;;'
  now ←' load value ;;
  print_line ("  Executed: Multiply by " +:+ to_string factor
              +:+ " (result: " +:+ to_string now +:+ ")").

Definition MultiplyCommand_undo (value : addr) (factor : Z) : M unit :=
  v ←' load value ;;
  v' ←' int_div v factor ;;
  store value v' ;;'
  now ←' load value ;;
  print_line ("  Undone: Multiply by " +:+ to_string factor
              +:+ " (result: " +:+ to_string now +:+ ")").

Definition MultiplyCommand_describe (factor : Z) : string :=
  "Multiply by " +:+ to_string factor.

Definition Command_execute (cmd : Command) : M unit :=
  match cmd with
  | AddCommand value amount => AddCommand_execute value amount
  | MultiplyCommand value factor => MultiplyCommand_execute value factor
  end.

Definition Command_undo (cmd : Command) : M unit :=
  match cmd with
  | AddCommand value amount => AddCommand_undo value amount
  | MultiplyCommand value factor => MultiplyCommand_undo value factor
  end.

Definition Command_describe (cmd : Command) : string :=
  match cmd with
  | AddCommand _ amount => AddCommand_describe amount
  | MultiplyCommand _ factor => MultiplyCommand_describe factor
  end.

(** ** CommandManager *)

Record CommandManager : Type := {
  undoStack : list Command;
  redoStack : list Command
}.

(** A default-constructed manager. *)
Definition fresh : CommandManager := {| undoStack := []; redoStack := [] |}.

(** [while (!redoStack.empty()) redoStack.pop();] *)
Fixpoint pop_all (s : list Command) : list Command :=
  match s with
  | [] => []
  | _ :: rest => pop_all rest
  end.

Definition executeCommand (cmd : Command) (m : CommandManager) : M CommandManager :=
  Command_execute cmd ;;'
  let pushed := cmd :: undoStack m in
  ret {| undoStack := pushed; redoStack := pop_all (redoStack m) |}.

Definition undo (m : CommandManager) : M CommandManager :=
  match undoStack m with
  | cmd :: rest =>
      Command_undo cmd ;;'
      ret {| undoStack := rest; redoStack := cmd :: redoStack m |}
  | [] =>
      print_line "  Nothing to undo" ;;'
      ret m
  end.

Definition redo (m : CommandManager) : M CommandManager :=
  match redoStack m with
  | cmd :: rest =>
      Command_execute cmd ;;'
      ret {| undoStack := cmd :: undoStack m; redoStack := rest |}
  | [] =>
      print_line "  Nothing to redo" ;;'
      ret m
  end.

(** ** Callers: sequences of calls on one manager *)

Inductive call : Type :=
| ExecuteCommand (cmd : Command)
| Undo
| Redo.

Definition perform (c : call) (m : CommandManager) : M CommandManager :=
  match c with
  | ExecuteCommand cmd => executeCommand cmd m
  | Undo => undo m
  | Redo => redo m
  end.

Fixpoint perform_all (cs : list call) (m : CommandManager) : M CommandManager :=
  match cs with
  | [] => ret m
  | c :: cs' => m' ←' perform c m ;; perform_all cs' m'
  end.

(** [n] calls of one method in a row. *)
Fixpoint repeat_call (f : CommandManager → M CommandManager) (n : nat)
    (m : CommandManager) : M CommandManager :=
  match n with
  | O => ret m
  | S n' => m' ←' f m ;; repeat_call f n' m'
  end.

Definition execute_all (cmds : list Command) (m : CommandManager) : M CommandManager :=
  perform_all (ExecuteCommand <$> cmds) m.

(** The value of the variable at [r]. *)
Definition value_at (r : addr) (mem : memory) : option Z := mem !! r.


(** ** Example 6 of [main] *)

(** [int value = 10;] at address 0, and the calls on [manager]. *)
Definition main_memory : gmap nat Z := {[0%nat := 10]}.

Definition main_calls : list call :=
  [ExecuteCommand (AddCommand 0 5);
   ExecuteCommand (MultiplyCommand 0 2);
   ExecuteCommand (AddCommand 0 10);
   Undo; Undo;
   Redo].

(** The scenario of the specification goes on with a new command and a
    redo. *)
Definition scenario : list call :=
  main_calls ++ [ExecuteCommand (AddCommand 0 1); Redo].

(** The state after the first [n] calls of the scenario. *)
Definition state_after (n : nat) : outcome CommandManager :=
  perform_all (take n scenario) fresh main_memory.

Definition value_after (n : nat) : option Z :=
  match state_after n with
  | Returns _ mem _ => value_at 0 mem
  | Undefined _ => None
  end.

(** ** Vocabulary of the statements *)

Definition target (cmd : Command) : addr :=
  match cmd with
  | AddCommand value _ => value
  | MultiplyCommand value _ => value
  end.

(** A command whose [undo] never divides by zero. *)
Definition well_formed (cmd : Command) : Prop :=
  match cmd with
  | AddCommand _ _ => True
  | MultiplyCommand _ factor => factor ≠ 0
  end.

Definition well_formed_call (c : call) : Prop :=
  match c with
  | ExecuteCommand cmd => well_formed cmd
  | Undo | Redo => True
  end.

(** Number of commands a manager owns. *)
Definition owned (m : CommandManager) : nat :=
  length (undoStack m) + length (redoStack m).

(** The stacks as the history of calls alone determines them: the commands
    executed and not yet undone, and the commands undone and not yet redone
    (nor discarded by a later [executeCommand]), most recent first. *)
Fixpoint pending (cs : list call) (executed undone : list Command)
    : list Command * list Command :=
  match cs with
  | [] => (executed, undone)
  | ExecuteCommand cmd :: cs' => pending cs' (cmd :: executed) []
  | Undo :: cs' =>
      match executed with
      | last :: earlier => pending cs' earlier (last :: undone)
      | [] => pending cs' executed undone
      end
  | Redo :: cs' =>
      match undone with
      | last :: earlier => pending cs' (last :: executed) earlier
      | [] => pending cs' executed undone
      end
  end.

(** ** Histories that can be unwound *)

(** [undoable base mem top]: the commands of [top] (most recent first) were
    executed one after the other from [base] and led to [mem]; each was
    well formed and ran on a memory of [int]s. *)
Inductive undoable : gmap nat Z → gmap nat Z → list Command → Prop :=
| undoable_nil mem : undoable mem mem []
| undoable_cons base mem0 mem cmd rest u out :
    undoable base mem0 rest →
    valid_memory mem0 → well_formed cmd →
    Command_execute cmd mem0 = Returns u mem out →
    undoable base mem (cmd :: rest).

(** [redoable mem top]: the commands of [top] can be executed again one
    after the other from [mem]. *)
Inductive redoable : gmap nat Z → list Command → Prop :=
| redoable_nil mem : redoable mem []
| redoable_cons mem mem' cmd rest u out :
    well_formed cmd →
    Command_execute cmd mem = Returns u mem' out →
    redoable mem' rest →
    redoable mem (cmd :: rest).

(** The invariant of a manager that only ever received well-formed
    commands, together with the memory it acts on. *)
Record consistent (m : CommandManager) (mem : gmap nat Z) : Prop := {
  consistent_valid : valid_memory mem;
  consistent_undo : ∃ base, undoable base mem (undoStack m);
  consistent_redo : redoable mem (redoStack m)
}.

Create HintDb history.
#[local] Hint Constructors undoable redoable : history.

(** ** The other examples of the file *)

(** The range-based [for] loop. *)
Definition for_each {A} (body : A → M unit) : list A → M unit :=
  fix loop (l : list A) : M unit :=
    match l with
    | [] => ret tt
    | x :: rest => body x ;;' loop rest
    end.

(** [std::count_if] over a range. *)
Fixpoint count_if {A} (pred : A → bool) (l : list A) : nat :=
  match l with
  | [] => O
  | x :: rest => ((if pred x then 1 else 0) + count_if pred rest)%nat
  end.

(** [v.erase(remove_if(v.begin(), v.end(), pred), v.end())]: the elements
    that do not satisfy [pred], in their order. *)
Fixpoint erase_remove_if {A} (pred : A → bool) (l : list A) : list A :=
  match l with
  | [] => []
  | x :: rest =>
      if pred x then erase_remove_if pred rest
      else x :: erase_remove_if pred rest
  end.

(** *** Shared objects

    The objects some [shared_ptr] keeps alive are a map from the identity
    of their control block to the object.  A [shared_ptr] or a [weak_ptr]
    is that identity, or is empty ([None]; [nullptr] for a [shared_ptr]). *)

Definition expired {A} (wp : option nat) (alive : gmap nat A) : bool :=
  match wp with
  | Some id => match alive !! id with Some _ => false | None => true end
  | None => true
  end.

Definition lock {A} (wp : option nat) (alive : gmap nat A) : option nat :=
  match wp with
  | Some id => match alive !! id with Some _ => Some id | None => None end
  | None => None
  end.

(** *** Example 1: [DatabaseConnection] *)

Record DatabaseConnection : Type := {
  connectionString : string;
  connected : bool
}.

Definition DatabaseConnection_new (connStr : string) : M DatabaseConnection :=
  let db := {| connectionString := connStr; connected := true |} in
  print_line ("  [DB Connected: " +:+ connectionString db +:+ "]") ;;'
  ret db.

Definition DatabaseConnection_delete (db : DatabaseConnection) : M unit :=
  if connected db
  then print_line ("  [DB Disconnected: " +:+ connectionString db +:+ "]")
  else ret tt.

Definition DatabaseConnection_query (sql : string) (db : DatabaseConnection)
    : M unit :=
  if connected db then print_line ("  Executing: " +:+ sql) else ret tt.

Definition DatabaseConnection_disconnect (db : DatabaseConnection)
    : M DatabaseConnection :=
  let db' := {| connectionString := connectionString db; connected := false |} in
  print_line "  [DB Manually disconnected]" ;;'
  ret db'.

(** A block that owns a connection through a [unique_ptr]: construction,
    calls, and destruction when the block is left. *)
Inductive db_call : Type :=
| Query (sql : string)
| Disconnect.

Definition db_perform (c : db_call) (db : DatabaseConnection)
    : M DatabaseConnection :=
  match c with
  | Query sql => DatabaseConnection_query sql db ;;' ret db
  | Disconnect => DatabaseConnection_disconnect db
  end.

Fixpoint db_perform_all (cs : list db_call) (db : DatabaseConnection)
    : M DatabaseConnection :=
  match cs with
  | [] => ret db
  | c :: cs' => db' ←' db_perform c db ;; db_perform_all cs' db'
  end.

Definition db_scope (connStr : string) (cs : list db_call) : M unit :=
  db ←' DatabaseConnection_new connStr ;;
  db' ←' db_perform_all cs db ;;
  DatabaseConnection_delete db'.

(** *** Example 2: shapes and their factory *)

Inductive Shape : Type :=
| Circle (radius : Z)
| Rectangle (width height : Z).



Definition Shape_draw (s : Shape) : M unit :=
  match s with
  | Circle radius =>
      print_line ("  Drawing circle (radius: " +:+ to_string radius +:+ ")")
  | Rectangle width height =>
      print_line ("  Drawing rectangle (" +:+ to_string width +:+ "x"
                  +:+ to_string height +:+ ")")
  end.



(** *** Example 3: [Subject] and its observers *)

Record ConcreteObserver : Type := { name : string }.

Definition ConcreteObserver_onNotify (message : string) (obs : ConcreteObserver)
    : M unit :=
  print_line ("  " +:+ name obs +:+ " received: " +:+ message).

Definition ConcreteObserver_getName (obs : ConcreteObserver) : string := name obs.

Record Subject : Type := { observers : list (option nat) }.

Definition Subject_attach (obs : option nat) (s : Subject) : M Subject :=
  let s' := {| observers := observers s ++ [obs] |} in
  print_line "  Observer attached" ;;'
  ret s'.

Definition Subject_notify (message : string) (alive : gmap nat ConcreteObserver)
    (s : Subject) : M Subject :=
  print_line "  Notifying observers..." ;;'
  let s' := {| observers :=
                 erase_remove_if (λ wp, expired wp alive) (observers s) |} in
  for_each (λ weakObs : option nat,
              match lock weakObs alive with
              | Some obs =>
                  match alive !! obs with
                  | Some o => ConcreteObserver_onNotify message o
                  | None => ret tt
                  end
              | None => ret tt
              end) (observers s') ;;'
  ret s'.

Definition Subject_observerCount (alive : gmap nat ConcreteObserver)
    (s : Subject) : nat :=
  count_if (λ wp, negb (expired wp alive)) (observers s).

(** *** Example 4: [TreeNode] *)

#[warnings="-register-all"]
Inductive TreeNode : Type :=
| mkTreeNode (data : string) (children : list TreeNode) (parent : option nat).

Definition TreeNode_new (d : string) : M TreeNode :=
  print_line ("  [TreeNode '" +:+ d +:+ "' created]") ;;'
  ret (mkTreeNode d [] None).

Definition TreeNode_addChild (child : TreeNode) (t : TreeNode) : TreeNode :=
  match t with
  | mkTreeNode data children parent =>
      mkTreeNode data (children ++ [child]) parent
  end.

Definition TreeNode_setParent (p : option nat) (t : TreeNode) : TreeNode :=
  match t with
  | mkTreeNode data children _ => mkTreeNode data children p
  end.

Definition TreeNode_getData (t : TreeNode) : string :=
  match t with mkTreeNode data _ _ => data end.

Definition TreeNode_childCount (t : TreeNode) : nat :=
  match t with mkTreeNode _ children _ => length children end.

(** [for (int i = 0; i < indent; ++i) cout << "  ";] *)
Fixpoint spaces (n : nat) : string :=
  match n with
  | O => ""
  | S n' => "  " +:+ spaces n'
  end.

Fixpoint TreeNode_print (indent : Z) (t : TreeNode) {struct t} : M unit :=
  match t with
  | mkTreeNode data children _ =>
      print_line (spaces (Z.to_nat indent) +:+ data) ;;'
      for_each (λ child : TreeNode,
                  next ←' int_add indent 1 ;;
                  TreeNode_print next child) children
  end.

(** Number of nodes, and number of levels below the root. *)
Fixpoint TreeNode_size (t : TreeNode) : nat :=
  match t with
  | mkTreeNode _ children _ => S (foldr (λ c n, (TreeNode_size c + n)%nat) O children)
  end.

Fixpoint TreeNode_height (t : TreeNode) : nat :=
  match t with
  | mkTreeNode _ children _ =>
      foldr (λ c n, Nat.max (S (TreeNode_height c)) n) O children
  end.

(** *** Example 5: [Cache] *)

Section Cache.
Context `{Countable Key} {Value : Type} (show : Key → string).

Definition Cache_get (key : Key) (alive : gmap nat Value)
    (cache : gmap Key (option nat))
    : M (option nat * gmap Key (option nat)) :=
  match cache !! key with
  | Some wp =>
      match lock wp alive with
      | Some cached =>
          print_line ("  Cache hit for key: " +:+ show key) ;;'
          ret (Some cached, cache)
      | None =>
          print_line ("  Cache expired for key: " +:+ show key) ;;'
          let cache' := delete key cache in
          print_line ("  Cache miss for key: " +:+ show key) ;;'
          ret (None, cache')
      end
  | None =>
      print_line ("  Cache miss for key: " +:+ show key) ;;'
      ret (None, cache)
  end.

Definition Cache_put (key : Key) (value : option nat)
    (cache : gmap Key (option nat)) : M (gmap Key (option nat)) :=
  let cache' := <[key:=value]> cache in
  print_line ("  Cached key: " +:+ show key) ;;'
  ret cache'.

Definition Cache_size (alive : gmap nat Value)
    (cache : gmap Key (option nat)) : nat :=
  count_if (λ pair : Key * option nat, negb (expired pair.2 alive))
    (map_to_list cache).

(** The loop visits every entry once and erases the expired ones. *)
Definition Cache_cleanup (alive : gmap nat Value)
    (cache : gmap Key (option nat)) : gmap Key (option nat) :=
  foldl (λ c (pair : Key * option nat),
           if expired pair.2 alive then delete pair.1 c else c)
    cache (map_to_list cache).
End Cache.

(** ** Proof automation *)

Ltac unfold_methods :=
  unfold Command_execute, Command_undo,
    AddCommand_execute, AddCommand_undo,
    MultiplyCommand_execute, MultiplyCommand_undo,
    bind, ret, load, store, print_line,
    int_add, int_sub, int_mul, int_div, to_int in *.

(** * Commands *)

Lemma representable_bounds z :
  representable z = true ↔ INT_MIN ≤ z ≤ INT_MAX.
Proof. unfold representable. rewrite andb_true_iff, !Z.leb_le. tauto. Qed.

Lemma valid_memory_lookup (mem : gmap nat Z) r v :
  valid_memory mem → mem !! r = Some v → representable v = true.
Proof. intros Hv Hr. exact (Hv r v Hr). Qed.

Lemma valid_memory_insert (mem : gmap nat Z) r v :
  valid_memory mem → representable v = true → valid_memory (<[r:=v]> mem).
Proof. intros Hv Hr. apply map_Forall_insert_2; assumption. Qed.

(** What [execute] does to a live target: it stores the sum or the product
    when that is an [int], and is undefined otherwise. *)
Lemma AddCommand_execute_live (mem : gmap nat Z) value amount v :
  mem !! value = Some v →
  AddCommand_execute value amount mem =
    if representable (v + amount)
    then Returns tt (<[value:=v + amount]> mem)
           ["  Executed: Add " +:+ to_string amount
            +:+ " (result: " +:+ to_string (v + amount) +:+ ")"]
    else Undefined SignedOverflow.
Proof.
  intros Hv. unfold_methods. rewrite Hv.
  destruct (representable (v + amount)); [|reflexivity].
  rewrite Hv, lookup_insert_eq. reflexivity.
Qed.

Lemma AddCommand_undo_live (mem : gmap nat Z) value amount v :
  mem !! value = Some v →
  AddCommand_undo value amount mem =
    if representable (v - amount)
    then Returns tt (<[value:=v - amount]> mem)
           ["  Undone: Add " +:+ to_string amount
            +:+ " (result: " +:+ to_string (v - amount) +:+ ")"]
    else Undefined SignedOverflow.
Proof.
  intros Hv. unfold_methods. rewrite Hv.
  destruct (representable (v - amount)); [|reflexivity].
  rewrite Hv, lookup_insert_eq. reflexivity.
Qed.

Lemma MultiplyCommand_execute_live (mem : gmap nat Z) value factor v :
  mem !! value = Some v →
  MultiplyCommand_execute value factor mem =
    if representable (v * factor)
    then Returns tt (<[value:=v * factor]> mem)
           ["  Executed: Multiply by " +:+ to_string factor
            +:+ " (result: " +:+ to_string (v * factor) +:+ ")"]
    else Undefined SignedOverflow.
Proof.
  intros Hv. unfold_methods. rewrite Hv.
  destruct (representable (v * factor)); [|reflexivity].
  rewrite Hv, lookup_insert_eq. reflexivity.
Qed.

Lemma MultiplyCommand_undo_live (mem : gmap nat Z) value factor v :
  mem !! value = Some v →
  MultiplyCommand_undo value factor mem =
    if factor =? 0 then Undefined DivideByZero
    else if representable (v ÷ factor)
    then Returns tt (<[value:=v ÷ factor]> mem)
           ["  Undone: Multiply by " +:+ to_string factor
            +:+ " (result: " +:+ to_string (v ÷ factor) +:+ ")"]
    else Undefined SignedOverflow.
Proof.
  intros Hv. unfold_methods. rewrite Hv.
  destruct (factor =? 0); [reflexivity|].
  destruct (representable (v ÷ factor)); [|reflexivity].
  rewrite Hv, lookup_insert_eq. reflexivity.
Qed.

(** A method called through a dangling reference is undefined. *)
Lemma Command_dangling (mem : gmap nat Z) cmd :
  mem !! target cmd = None →
  Command_execute cmd mem = Undefined DanglingReference ∧
  Command_undo cmd mem = Undefined DanglingReference.
Proof.
  intros Hn. destruct cmd; simpl in Hn; unfold_methods; rewrite Hn; auto.
Qed.

(** A method that returns wrote exactly one line and left a live target. *)
Lemma Command_execute_returns (mem mem' : gmap nat Z) cmd u out :
  Command_execute cmd mem = Returns u mem' out →
  ∃ v v', mem !! target cmd = Some v ∧ representable v' = true ∧
          mem' = <[target cmd:=v']> mem ∧
          v' = match cmd with
               | AddCommand _ amount => v + amount
               | MultiplyCommand _ factor => v * factor
               end.
Proof.
  intros Hex. destruct (mem !! target cmd) as [v|] eqn:Hv.
  - destruct cmd as [value amount|value factor]; simpl in Hv, Hex.
    + rewrite (AddCommand_execute_live _ _ _ _ Hv) in Hex.
      destruct (representable (v + amount)) eqn:Hr; [|discriminate].
      injection Hex as _ <- _. eauto 10.
    + rewrite (MultiplyCommand_execute_live _ _ _ _ Hv) in Hex.
      destruct (representable (v * factor)) eqn:Hr; [|discriminate].
      injection Hex as _ <- _. eauto 10.
  - destruct (Command_dangling mem cmd Hv) as [E _]. congruence.
Qed.

Lemma Command_execute_valid (mem mem' : gmap nat Z) cmd u out :
  valid_memory mem → Command_execute cmd mem = Returns u mem' out →
  valid_memory mem'.
Proof.
  intros Hval Hex.
  destruct (Command_execute_returns _ _ _ _ _ Hex) as (v & v' & _ & Hr & -> & _).
  by apply valid_memory_insert.
Qed.

(** [undo] right after the paired [execute] gives back the memory. *)
Lemma Command_undo_after_execute_at (mem mem' : gmap nat Z) cmd v u out :
  well_formed cmd → mem !! target cmd = Some v → representable v = true →
  Command_execute cmd mem = Returns u mem' out →
  ∃ out', Command_undo cmd mem' = Returns tt mem out'.
Proof.
  intros Hwf Hv Hrv Hex.
  destruct (Command_execute_returns _ _ _ _ _ Hex) as (v0 & v' & Hv0 & Hr & -> & Hv').
  assert (v0 = v) as -> by congruence.
  destruct cmd as [value amount|value factor]; simpl in *; subst v'.
  - rewrite (AddCommand_undo_live _ _ _ (v + amount)) by apply lookup_insert_eq.
    replace (v + amount - amount) with v by lia. rewrite Hrv.
    rewrite insert_insert_eq, insert_id by done. eauto.
  - rewrite (MultiplyCommand_undo_live _ _ _ (v * factor)) by apply lookup_insert_eq.
    rewrite Z.quot_mul by done.
    destruct (factor =? 0) eqn:Hz; [apply Z.eqb_eq in Hz; done|].
    rewrite Hrv, insert_insert_eq, insert_id by done. eauto.
Qed.

Lemma Command_undo_after_execute (mem mem' : gmap nat Z) cmd u out :
  well_formed cmd → valid_memory mem →
  Command_execute cmd mem = Returns u mem' out →
  ∃ out', Command_undo cmd mem' = Returns tt mem out'.
Proof.
  intros Hwf Hval Hex.
  destruct (Command_execute_returns _ _ _ _ _ Hex) as (v & _ & Hv & _).
  eapply Command_undo_after_execute_at; eauto using valid_memory_lookup.
Qed.

(** The quotient of an [int] by a non-zero [int] is an [int], except for
    [INT_MIN / -1]. *)
Lemma quot_representable v f :
  representable v = true → f ≠ 0 → ¬ (v = INT_MIN ∧ f = -1) →
  representable (v ÷ f) = true.
Proof.
  rewrite !representable_bounds. unfold INT_MIN, INT_MAX. intros Hv Hf Hn.
  assert (Z.abs (v ÷ f) ≤ Z.abs v) as Habs.
  { rewrite <- Z.quot_abs by assumption.
    apply Z.quot_le_upper_bound; [lia|].
    assert (1 ≤ Z.abs f) by lia. nia. }
  destruct (Z.eq_dec f (-1)) as [->|Hm1].
  - change (-1) with (- (1)). rewrite Z.quot_opp_r, Z.quot_1_r by lia. lia.
  - destruct (Z.eq_dec v (-2147483648)) as [->|Hv']; [|lia].
    destruct (Z.eq_dec f 1) as [->|H1]; [rewrite Z.quot_1_r; lia|].
    assert (Z.abs (-2147483648 ÷ f) ≤ 1073741824); [|lia].
    rewrite <- Z.quot_abs by assumption.
    change (Z.abs (-2147483648)) with (2 * 1073741824).
    apply Z.quot_le_upper_bound; [lia|]. assert (2 ≤ Z.abs f) by lia. nia.
Qed.

(** * Sequencing *)

Lemma bind_returns {A B} (m : M A) (f : A → M B) (mem : gmap nat Z) a mem1 out1 b mem2 out2 :
  m mem = Returns a mem1 out1 → f a mem1 = Returns b mem2 out2 →
  bind m f mem = Returns b mem2 (out1 ++ out2).
Proof. intros H1 H2. unfold bind. rewrite H1, H2. reflexivity. Qed.

Lemma bind_returns_inv {A B} (m : M A) (f : A → M B) (mem : gmap nat Z) b mem2 out :
  bind m f mem = Returns b mem2 out →
  ∃ a mem1 out1 out2,
    m mem = Returns a mem1 out1 ∧ f a mem1 = Returns b mem2 out2 ∧
    out = out1 ++ out2.
Proof.
  unfold bind. destruct (m mem) as [a mem1 out1|]; [|discriminate].
  destruct (f a mem1) as [b' mem2' out2|] eqn:Hf; [|discriminate].
  intros [= <- <- <-]. exists a, mem1, out1, out2. auto.
Qed.

Lemma bind_undefined {A B} (m : M A) (f : A → M B) (mem : gmap nat Z) why :
  m mem = Undefined why → bind m f mem = Undefined why.
Proof. intros H. unfold bind. rewrite H. reflexivity. Qed.

Lemma repeat_call_last f n m (mem : gmap nat Z) :
  repeat_call f (S n) m mem = bind (repeat_call f n m) f mem.
Proof.
  revert m mem. induction n as [|n IH]; intros m mem.
  - simpl. unfold bind, ret. destruct (f m mem); [|reflexivity].
    simpl. rewrite app_nil_r. reflexivity.
  - change (repeat_call f (S (S n)) m mem)
      with (bind (f m) (repeat_call f (S n)) mem).
    change (repeat_call f (S n) m) with (bind (f m) (repeat_call f n)).
    unfold bind. destruct (f m mem) as [m1 mem1 out1|]; [|reflexivity].
    rewrite IH. unfold bind.
    destruct (repeat_call f n m1 mem1) as [m2 mem2 out2|]; [|reflexivity].
    destruct (f m2 mem2) as [m3 mem3 out3|]; [|reflexivity].
    rewrite app_assoc. reflexivity.
Qed.

Lemma bind_assoc {A B C} (m : M A) (f : A → M B) (g : B → M C)
    (mem : gmap nat Z) :
  bind (bind m f) g mem = bind m (λ a, bind (f a) g) mem.
Proof.
  unfold bind. destruct (m mem) as [a mem1 o1|]; [|reflexivity].
  destruct (f a mem1) as [b mem2 o2|]; [|reflexivity].
  destruct (g b mem2) as [c mem3 o3|]; [|reflexivity].
  by rewrite app_assoc.
Qed.

Lemma bind_ret_l {A B} (a : A) (f : A → M B) (mem : gmap nat Z) :
  bind (ret a) f mem = f a mem.
Proof. unfold bind, ret. by destruct (f a mem). Qed.

Lemma bind_ext {A B} (m : M A) (f g : A → M B) (mem : gmap nat Z) :
  (∀ a mem', f a mem' = g a mem') → bind m f mem = bind m g mem.
Proof.
  intros E. unfold bind. destruct (m mem) as [a mem1 o1|]; [|reflexivity].
  by rewrite E.
Qed.

Lemma bind_ret_r (m : M unit) (mem : gmap nat Z) :
  bind m (λ _, ret tt) mem = m mem.
Proof.
  unfold bind, ret. destruct (m mem) as [[] mem1 o1|]; [|reflexivity].
  by rewrite app_nil_r.
Qed.

Lemma for_each_cons {A} (body : A → M unit) x l :
  for_each body (x :: l) = bind (body x) (λ _, for_each body l).
Proof. reflexivity. Qed.

Lemma for_each_app {A} (body : A → M unit) l1 l2 (mem : gmap nat Z) :
  for_each body (l1 ++ l2) mem =
  bind (for_each body l1) (λ _, for_each body l2) mem.
Proof.
  revert mem. induction l1 as [|x l1 IH]; intros mem.
  - change (for_each body []) with (@ret unit tt). by rewrite bind_ret_l.
  - change ((x :: l1) ++ l2) with (x :: (l1 ++ l2)).
    rewrite !for_each_cons, bind_assoc. apply bind_ext. intros _ mem'. apply IH.
Qed.

(** * CommandManager: what each method does *)

Lemma pop_all_empty s : pop_all s = [].
Proof. induction s; auto. Qed.

Lemma executeCommand_unfold cmd m (mem : gmap nat Z) :
  executeCommand cmd m mem =
    match Command_execute cmd mem with
    | Returns _ mem' out =>
        Returns {| undoStack := cmd :: undoStack m; redoStack := [] |} mem' out
    | Undefined why => Undefined why
    end.
Proof.
  unfold executeCommand, bind, ret. rewrite pop_all_empty.
  destruct (Command_execute cmd mem); [|reflexivity].
  rewrite app_nil_r. reflexivity.
Qed.

Lemma undo_top cmd rest m (mem : gmap nat Z) :
  undoStack m = cmd :: rest →
  undo m mem =
    match Command_undo cmd mem with
    | Returns _ mem' out =>
        Returns {| undoStack := rest; redoStack := cmd :: redoStack m |} mem' out
    | Undefined why => Undefined why
    end.
Proof.
  intros Hs. unfold undo, bind, ret. rewrite Hs.
  destruct (Command_undo cmd mem); [|reflexivity].
  rewrite app_nil_r. reflexivity.
Qed.

Lemma undo_nothing m (mem : gmap nat Z) :
  undoStack m = [] → undo m mem = Returns m mem ["  Nothing to undo"].
Proof. intros Hs. unfold undo. rewrite Hs. reflexivity. Qed.

Lemma redo_top cmd rest m (mem : gmap nat Z) :
  redoStack m = cmd :: rest →
  redo m mem =
    match Command_execute cmd mem with
    | Returns _ mem' out =>
        Returns {| undoStack := cmd :: undoStack m; redoStack := rest |} mem' out
    | Undefined why => Undefined why
    end.
Proof.
  intros Hs. unfold redo, bind, ret. rewrite Hs.
  destruct (Command_execute cmd mem); [|reflexivity].
  rewrite app_nil_r. reflexivity.
Qed.

Lemma redo_nothing m (mem : gmap nat Z) :
  redoStack m = [] → redo m mem = Returns m mem ["  Nothing to redo"].
Proof. intros Hs. unfold redo. rewrite Hs. reflexivity. Qed.

(** * The invariant of a well-formed history *)

Lemma consistent_fresh (mem : gmap nat Z) : valid_memory mem → consistent fresh mem.
Proof. intros Hv. split; simpl; eauto with history. Qed.

Lemma executeCommand_consistent cmd m (mem : gmap nat Z) m' mem' out :
  well_formed cmd → consistent m mem →
  executeCommand cmd m mem = Returns m' mem' out →
  consistent m' mem'.
Proof.
  intros Hwf [Hv [base Hu] _]. rewrite executeCommand_unfold.
  destruct (Command_execute cmd mem) as [u mem1 out1|] eqn:Hex; [|discriminate].
  intros [= <- <- <-]. split; simpl.
  - eapply Command_execute_valid; eauto.
  - eauto with history.
  - constructor.
Qed.

Lemma undo_consistent m (mem : gmap nat Z) :
  consistent m mem → ∃ m' mem' out, undo m mem = Returns m' mem' out ∧ consistent m' mem'.
Proof.
  intros [Hv [base Hu] Hr]. destruct (undoStack m) as [|cmd rest] eqn:Hs.
  - rewrite undo_nothing by done. do 3 eexists. split; [reflexivity|].
    split; [done| |done]. rewrite Hs. eauto with history.
  - inversion Hu as [|? mem0 ? ? ? u out Hu0 Hv0 Hwf Hex]; subst.
    destruct (Command_undo_after_execute _ _ _ _ _ Hwf Hv0 Hex) as [out' Hun].
    rewrite (undo_top _ _ _ _ Hs), Hun. do 3 eexists. split; [reflexivity|].
    split; simpl; eauto with history.
Qed.

Lemma redo_consistent m (mem : gmap nat Z) :
  consistent m mem → ∃ m' mem' out, redo m mem = Returns m' mem' out ∧ consistent m' mem'.
Proof.
  intros [Hv [base Hu] Hr]. destruct (redoStack m) as [|cmd rest] eqn:Hs.
  - rewrite redo_nothing by done. do 3 eexists. split; [reflexivity|].
    split; [done|eauto|]. rewrite Hs. constructor.
  - inversion Hr as [|? mem1 ? ? u out Hwf Hex Hr1]; subst.
    rewrite (redo_top _ _ _ _ Hs), Hex. do 3 eexists. split; [reflexivity|].
    split; simpl; eauto using Command_execute_valid with history.
Qed.

Lemma perform_consistent c m (mem : gmap nat Z) m' mem' out :
  well_formed_call c → consistent m mem →
  perform c m mem = Returns m' mem' out → consistent m' mem'.
Proof.
  intros Hwf Hc Hp. destruct c as [cmd| |]; simpl in *.
  - eapply executeCommand_consistent; eauto.
  - destruct (undo_consistent _ _ Hc) as (? & ? & ? & E & ?). congruence.
  - destruct (redo_consistent _ _ Hc) as (? & ? & ? & E & ?). congruence.
Qed.

Lemma perform_all_consistent cs m (mem : gmap nat Z) m' mem' out :
  Forall well_formed_call cs → consistent m mem →
  perform_all cs m mem = Returns m' mem' out → consistent m' mem'.
Proof.
  intros Hwf. revert m mem out.
  induction Hwf as [|c cs Hc _ IH]; intros m mem out Hi Hp.
  - simpl in Hp. unfold ret in Hp. by injection Hp as <- <- _.
  - simpl in Hp. apply bind_returns_inv in Hp as (m1 & mem1 & o1 & o2 & H1 & H2 & _).
    eapply IH; [|exact H2]. eapply perform_consistent; eauto.
Qed.

(** A call keeps the base of the paired history on the undo stack. *)
Lemma perform_undoable c m (mem : gmap nat Z) m' mem' out base :
  well_formed_call c → consistent m mem →
  undoable base mem (undoStack m) →
  perform c m mem = Returns m' mem' out →
  undoable base mem' (undoStack m').
Proof.
  intros Hwf [Hv _ Hr] Hu Hp. destruct c as [cmd| |]; simpl in *.
  - rewrite executeCommand_unfold in Hp.
    destruct (Command_execute cmd mem) as [u mem1 out1|] eqn:Hex; [|discriminate].
    injection Hp as <- <- <-. simpl. eauto with history.
  - destruct (undoStack m) as [|cmd rest] eqn:Hs.
    + rewrite undo_nothing in Hp by exact Hs. injection Hp as <- <- _.
      by rewrite Hs.
    + inversion Hu as [|? mem0 ? ? ? u out0 Hu0 Hv0 Hwf0 Hex]; subst.
      destruct (Command_undo_after_execute _ _ _ _ _ Hwf0 Hv0 Hex) as [out' Hun].
      rewrite (undo_top cmd rest), Hun in Hp by exact Hs.
      by injection Hp as <- <- _.
  - destruct (redoStack m) as [|cmd rest] eqn:Hs.
    + rewrite redo_nothing in Hp by exact Hs. by injection Hp as <- <- _.
    + inversion Hr as [|? mem1 ? ? u out0 Hwf0 Hex Hr1]; subst.
      rewrite (redo_top cmd rest), Hex in Hp by exact Hs.
      injection Hp as <- <- _. simpl. eauto with history.
Qed.

Lemma perform_all_undoable cs : ∀ m (mem : gmap nat Z) m' mem' out base,
  Forall well_formed_call cs → consistent m mem →
  undoable base mem (undoStack m) →
  perform_all cs m mem = Returns m' mem' out →
  undoable base mem' (undoStack m').
Proof.
  induction cs as [|c cs IH]; intros m mem m' mem' out base Hwf Hc Hu Hp.
  - simpl in Hp. unfold ret in Hp. by injection Hp as <- <- _.
  - inversion Hwf as [|? ? Hc1 Hcs]; subst. simpl in Hp.
    apply bind_returns_inv in Hp as (m1 & mem1 & o1 & o2 & H1 & H2 & _).
    eapply IH; [exact Hcs| | |exact H2].
    + eapply perform_consistent; eauto.
    + eapply perform_undoable; eauto.
Qed.

(** * Executing, then unwinding *)

(** [n] executes push [n] paired commands on top of whatever the manager
    already held. *)
Lemma execute_all_undoable cmds m (mem : gmap nat Z) m1 mem1 out top rest base :
  Forall well_formed cmds → valid_memory mem →
  undoStack m = top ++ rest → undoable base mem top →
  execute_all cmds m mem = Returns m1 mem1 out →
  undoStack m1 = (rev cmds ++ top) ++ rest ∧
  undoable base mem1 (rev cmds ++ top) ∧ valid_memory mem1.
Proof.
  intros Hwf. revert m mem out top.
  induction Hwf as [|cmd cmds Hc _ IH]; intros m mem out top Hv Hs Hu Hex.
  - unfold execute_all in Hex. simpl in Hex. unfold ret in Hex.
    injection Hex as <- <- _. auto.
  - unfold execute_all in Hex. rewrite fmap_cons in Hex. simpl in Hex.
    apply bind_returns_inv in Hex as (m' & mem' & o1 & o2 & H1 & H2 & _).
    rewrite executeCommand_unfold in H1.
    destruct (Command_execute cmd mem) as [u mem2 out2|] eqn:Hcmd; [|discriminate].
    injection H1 as <- <- <-.
    assert (undoStack {| undoStack := cmd :: undoStack m; redoStack := [] |}
            = (cmd :: top) ++ rest) as Hs' by (simpl; rewrite Hs; reflexivity).
    destruct (IH _ _ _ (cmd :: top) (Command_execute_valid _ _ _ _ _ Hv Hcmd)
                Hs' (undoable_cons _ _ _ _ _ _ _ Hu Hv Hc Hcmd) H2) as (E & U & V).
    simpl rev. rewrite <- (app_assoc (rev cmds) [cmd] top). auto.
Qed.

(** Undoing a paired history walks the memory back to its base and moves
    the commands, in order, onto the redo stack. *)
Lemma repeat_undo_undoable top : ∀ m (mem base : gmap nat Z) rest,
  undoStack m = top ++ rest → undoable base mem top →
  ∃ out, repeat_call undo (length top) m mem =
           Returns {| undoStack := rest; redoStack := rev top ++ redoStack m |}
             base out.
Proof.
  induction top as [|cmd top IH]; intros m mem base rest Hs Hu.
  - inversion Hu; subst. simpl in *. destruct m as [u r]; simpl in *; subst.
    eexists. reflexivity.
  - inversion Hu as [|? mem0 ? ? ? u out Hu0 Hv0 Hwf Hex]; subst.
    destruct (Command_undo_after_execute _ _ _ _ _ Hwf Hv0 Hex) as [out' Hun].
    destruct (IH {| undoStack := top ++ rest; redoStack := cmd :: redoStack m |}
                mem0 base rest eq_refl Hu0) as [out'' Hrep].
    exists (out' ++ out''). change (length (cmd :: top)) with (S (length top)).
    change (repeat_call undo (S (length top)) m)
      with (bind (undo m) (repeat_call undo (length top))).
    simpl rev. rewrite <- app_assoc. simpl app at 2.
    eapply bind_returns; [|exact Hrep].
    rewrite (undo_top cmd (top ++ rest)), Hun by exact Hs. reflexivity.
Qed.

(** [k] undos followed by [k] redos, inside a paired history, come back to
    the same manager and the same memory. *)
Lemma undo_redo_round_trip k : ∀ top m (mem base : gmap nat Z) rest,
  undoStack m = top ++ rest → undoable base mem top → (k ≤ length top)%nat →
  ∃ m' mem' out out',
    repeat_call undo k m mem = Returns m' mem' out ∧
    repeat_call redo k m' mem' = Returns m mem out'.
Proof.
  induction k as [|k IH]; intros top m mem base rest Hs Hu Hk.
  - exists m, mem, [], []. split; reflexivity.
  - destruct top as [|cmd top]; [simpl in Hk; lia|].
    inversion Hu as [|? mem0 ? ? ? u out Hu0 Hv0 Hwf Hex]; subst.
    destruct (Command_undo_after_execute _ _ _ _ _ Hwf Hv0 Hex) as [out' Hun].
    set (m0 := {| undoStack := top ++ rest; redoStack := cmd :: redoStack m |}).
    destruct (IH top m0 mem0 base rest eq_refl Hu0 ltac:(simpl in Hk; lia))
      as (m' & mem' & o1 & o2 & Hundo & Hredo).
    exists m', mem', (out' ++ o1), (o2 ++ out). split.
    + change (repeat_call undo (S k) m) with (bind (undo m) (repeat_call undo k)).
      eapply bind_returns; [|exact Hundo].
      rewrite (undo_top cmd (top ++ rest)), Hun by exact Hs. reflexivity.
    + rewrite repeat_call_last. eapply bind_returns; [exact Hredo|].
      rewrite (redo_top cmd (redoStack m)) by reflexivity.
      rewrite Hex. simpl in *. rewrite <- Hs. destruct m; reflexivity.
Qed.

(** * The properties of the specification *)

(** ** Undoing everything *)

(** C1, as amended.  Take any start value [V0] of a variable [x], in a
    memory of [int]s, and any commands [cmds] none of which multiplies by
    zero.  If the [length cmds] calls of [executeCommand] return (no
    execute overflows [int]), then [length cmds] calls of [undo] return as
    well, and they leave the memory exactly as it was before the executes:
    [x] holds [V0] again, and the undo stack is back to what it was. *)
Theorem undo_all_restores_start (x : nat) (V0 : Z) (cmds : list Command)
    (m : CommandManager) (mem : gmap nat Z) m1 mem1 out1 :
  value_at x mem = Some V0 → valid_memory mem →
  Forall well_formed cmds →
  execute_all cmds m mem = Returns m1 mem1 out1 →
  ∃ m2 mem2 out2,
    repeat_call undo (length cmds) m1 mem1 = Returns m2 mem2 out2 ∧
    value_at x mem2 = Some V0 ∧ mem2 = mem ∧ undoStack m2 = undoStack m.
Proof.
  intros Hx Hv Hwf Hex.
  destruct (execute_all_undoable cmds m mem m1 mem1 out1 [] (undoStack m) mem
              Hwf Hv eq_refl (undoable_nil mem) Hex) as (Hs & Hu & _).
  rewrite app_nil_r in Hs, Hu.
  destruct (repeat_undo_undoable (rev cmds) m1 mem1 mem (undoStack m) Hs Hu)
    as [out2 Hrep].
  rewrite length_rev in Hrep. eauto 10.
Qed.

(** The demonstration of [main]: 10, plus 5, times 2, plus 10, and three
    undos. *)
Lemma undo_all_restores_start_witness :
  ∃ m2 mem2 out2,
    repeat_call undo 3
      {| undoStack := [AddCommand 0 10; MultiplyCommand 0 2; AddCommand 0 5];
         redoStack := [] |}
      {[0%nat := 40]} = Returns m2 mem2 out2 ∧
    value_at 0 mem2 = Some 10 ∧ mem2 = {[0%nat := 10]} ∧
    undoStack m2 = [].
Proof.
  apply (undo_all_restores_start 0 10
           [AddCommand 0 5; MultiplyCommand 0 2; AddCommand 0 10]
           fresh {[0%nat := 10]} _ _
           ["  Executed: Add 5 (result: 15)";
            "  Executed: Multiply by 2 (result: 30)";
            "  Executed: Add 10 (result: 40)"]).
  - reflexivity.
  - apply map_Forall_singleton. reflexivity.
  - repeat constructor; discriminate.
  - vm_compute. reflexivity.
Defined.

(** C1 as stated fails.  After [executeCommand(MultiplyCommand(value, 0))]
    on 10 the value is 0 and the one [undo] divides by zero; and
    [MultiplyCommand(value, 4)] on 1073741824 overflows [int] in [execute],
    after which no [undo] brings 1073741824 back. *)
Lemma undo_all_counterexample :
  execute_all [MultiplyCommand 0 0] fresh {[0%nat := 10]} =
    Returns {| undoStack := [MultiplyCommand 0 0]; redoStack := [] |}
      {[0%nat := 0]} ["  Executed: Multiply by 0 (result: 0)"] ∧
  repeat_call undo 1 {| undoStack := [MultiplyCommand 0 0]; redoStack := [] |}
    {[0%nat := 0]} = Undefined DivideByZero ∧
  execute_all [MultiplyCommand 0 4] fresh {[0%nat := 1073741824]} =
    Undefined SignedOverflow.
Proof. repeat split; vm_compute; reflexivity. Qed.

(** ** Undoing and redoing *)

(** C2, as amended.  After [length cmds] calls of [executeCommand] that
    return, with no command multiplying by zero, any [k ≤ length cmds] calls
    of [undo] followed by [k] calls of [redo] all return, and they end in
    the memory (hence the target value) and the manager that the executes
    had left. *)
Theorem redo_after_undo_restores (cmds : list Command) (k : nat)
    (m : CommandManager) (mem : gmap nat Z) m1 mem1 out1 :
  valid_memory mem → Forall well_formed cmds → (k ≤ length cmds)%nat →
  execute_all cmds m mem = Returns m1 mem1 out1 →
  ∃ m2 mem2 out2 m3 mem3 out3,
    repeat_call undo k m1 mem1 = Returns m2 mem2 out2 ∧
    repeat_call redo k m2 mem2 = Returns m3 mem3 out3 ∧
    mem3 = mem1 ∧ m3 = m1.
Proof.
  intros Hv Hwf Hk Hex.
  destruct (execute_all_undoable cmds m mem m1 mem1 out1 [] (undoStack m) mem
              Hwf Hv eq_refl (undoable_nil mem) Hex) as (Hs & Hu & _).
  rewrite app_nil_r in Hs, Hu.
  destruct (undo_redo_round_trip k (rev cmds) m1 mem1 mem (undoStack m) Hs Hu)
    as (m2 & mem2 & out2 & out3 & Hundo & Hredo).
  { rewrite length_rev. exact Hk. }
  exists m2, mem2, out2, m1, mem1, out3. auto.
Qed.

(** Three executes from 10, then two undos and two redos. *)
Lemma redo_after_undo_restores_witness :
  ∃ m2 mem2 out2 m3 mem3 out3,
    repeat_call undo 2
      {| undoStack := [AddCommand 0 10; MultiplyCommand 0 2; AddCommand 0 5];
         redoStack := [] |}
      {[0%nat := 40]} = Returns m2 mem2 out2 ∧
    repeat_call redo 2 m2 mem2 = Returns m3 mem3 out3 ∧
    mem3 = {[0%nat := 40]} ∧
    m3 = {| undoStack := [AddCommand 0 10; MultiplyCommand 0 2; AddCommand 0 5];
            redoStack := [] |}.
Proof.
  apply (redo_after_undo_restores
           [AddCommand 0 5; MultiplyCommand 0 2; AddCommand 0 10] 2
           fresh {[0%nat := 10]} _ _
           ["  Executed: Add 5 (result: 15)";
            "  Executed: Multiply by 2 (result: 30)";
            "  Executed: Add 10 (result: 40)"]).
  - apply map_Forall_singleton. reflexivity.
  - repeat constructor; discriminate.
  - simpl. lia.
  - vm_compute. reflexivity.
Defined.

(** C2 as stated fails.  After [AddCommand(value, 3)] and
    [MultiplyCommand(value, 0)] on 7 the value is 0; the first of one undo
    and one redo divides by zero, so the pair never gets back to 0.  And
    when an execute overflows there is no value after the executes to come
    back to. *)
Lemma redo_after_undo_counterexample :
  execute_all [AddCommand 0 3; MultiplyCommand 0 0] fresh {[0%nat := 7]} =
    Returns {| undoStack := [MultiplyCommand 0 0; AddCommand 0 3];
               redoStack := [] |}
      {[0%nat := 0]}
      ["  Executed: Add 3 (result: 10)";
       "  Executed: Multiply by 0 (result: 0)"] ∧
  bind (repeat_call undo 1
          {| undoStack := [MultiplyCommand 0 0; AddCommand 0 3];
             redoStack := [] |})
       (repeat_call redo 1) {[0%nat := 0]} = Undefined DivideByZero ∧
  execute_all [AddCommand 0 1; MultiplyCommand 0 3] fresh
    {[0%nat := 1073741824]} = Undefined SignedOverflow.
Proof. repeat split; vm_compute; reflexivity. Qed.

(** ** One command: execute, then undo *)

(** C5, as amended.  For every command that does not multiply by zero and
    every [int] value [v] of its target, if [execute] returns (the sum or
    the product is an [int]) then [undo] called right after it returns too
    and gives back the memory [execute] started from: [AddCommand(amount)]
    stored [v + amount] and its undo subtracts [amount];
    [MultiplyCommand(factor)] stored [v * factor] and its undo divides by
    [factor], and [(v + amount) - amount = v], [(v * factor) / factor = v]. *)
Theorem undo_inverts_execute (cmd : Command) (mem mem' : gmap nat Z) (v : Z)
    u out :
  value_at (target cmd) mem = Some v → representable v = true →
  well_formed cmd →
  Command_execute cmd mem = Returns u mem' out →
  (∃ out', Command_undo cmd mem' = Returns tt mem out') ∧
  value_at (target cmd) mem = Some v ∧
  match cmd with
  | AddCommand value amount =>
      value_at value mem' = Some (v + amount) ∧
      AddCommand_undo value amount mem' =
        Returns tt (<[value:=v + amount - amount]> mem')
          ["  Undone: Add " +:+ to_string amount
           +:+ " (result: " +:+ to_string (v + amount - amount) +:+ ")"] ∧
      v + amount - amount = v
  | MultiplyCommand value factor =>
      value_at value mem' = Some (v * factor) ∧
      MultiplyCommand_undo value factor mem' =
        Returns tt (<[value:=(v * factor) ÷ factor]> mem')
          ["  Undone: Multiply by " +:+ to_string factor
           +:+ " (result: " +:+ to_string ((v * factor) ÷ factor) +:+ ")"] ∧
      (v * factor) ÷ factor = v
  end.
Proof.
  intros Hv Hrv Hwf Hex. unfold value_at in *.
  split; [eapply Command_undo_after_execute_at; eauto|].
  split; [done|].
  destruct (Command_execute_returns _ _ _ _ _ Hex) as (v0 & v' & Hv0 & Hr & -> & Hv').
  assert (v0 = v) as -> by congruence.
  destruct cmd as [value amount|value factor]; simpl in *; subst v'.
  - rewrite lookup_insert_eq. split; [done|]. split; [|lia].
    rewrite (AddCommand_undo_live _ _ _ (v + amount)) by apply lookup_insert_eq.
    replace (v + amount - amount) with v by lia. by rewrite Hrv.
  - rewrite lookup_insert_eq. split; [done|]. split; [|by apply Z.quot_mul].
    rewrite (MultiplyCommand_undo_live _ _ _ (v * factor)) by apply lookup_insert_eq.
    destruct (factor =? 0) eqn:Hz; [apply Z.eqb_eq in Hz; done|].
    rewrite Z.quot_mul by done. by rewrite Hrv.
Qed.

(** 15 times 2, and back. *)
Lemma undo_inverts_execute_witness :
  (∃ out', Command_undo (MultiplyCommand 0 2) {[0%nat := 30]} =
             Returns tt {[0%nat := 15]} out') ∧
  value_at 0 ({[0%nat := 15]} : gmap nat Z) = Some 15 ∧
  value_at 0 ({[0%nat := 30]} : gmap nat Z) = Some (15 * 2) ∧
  MultiplyCommand_undo 0 2 {[0%nat := 30]} =
    Returns tt (<[0%nat:=(15 * 2) ÷ 2]> {[0%nat := 30]})
      ["  Undone: Multiply by " +:+ to_string 2
       +:+ " (result: " +:+ to_string ((15 * 2) ÷ 2) +:+ ")"] ∧
  (15 * 2) ÷ 2 = 15.
Proof.
  apply (undo_inverts_execute (MultiplyCommand 0 2) {[0%nat := 15]}
           {[0%nat := 30]} 15 tt ["  Executed: Multiply by 2 (result: 30)"]).
  - reflexivity.
  - reflexivity.
  - simpl. discriminate.
  - vm_compute. reflexivity.
Defined.

(** C5 as stated fails for [MultiplyCommand(value, 0)]: on 10 its execute
    stores 0 and its undo then divides by zero.  It also fails when the
    execute overflows: 1073741824 times 4 is not an [int]. *)
Lemma undo_inverts_execute_counterexample :
  Command_execute (MultiplyCommand 0 0) {[0%nat := 10]} =
    Returns tt {[0%nat := 0]} ["  Executed: Multiply by 0 (result: 0)"] ∧
  Command_undo (MultiplyCommand 0 0) {[0%nat := 0]} = Undefined DivideByZero ∧
  Command_execute (MultiplyCommand 0 4) {[0%nat := 1073741824]} =
    Undefined SignedOverflow.
Proof. repeat split; vm_compute; reflexivity. Qed.

(** ** The division in [MultiplyCommand::undo] *)

(** C9, as amended.  [MultiplyCommand::undo] divides the target by [factor]
    with no guard: on a live target of value [v],
    - with [factor = 0] it divides by zero;
    - with [factor ≠ 0] it never divides by zero, and it returns, storing
      [v / factor], unless [v = INT_MIN] and [factor = -1], the one
      quotient that is not an [int];
    - every [undo] of a manager that started empty on a memory of [int]s
      and whose calls all returned, none of its commands multiplying by
      zero, returns. *)
Theorem MultiplyCommand_undo_division (value : nat) (factor : Z)
    (mem : gmap nat Z) (v : Z) :
  mem !! value = Some v → representable v = true →
  (factor = 0 → MultiplyCommand_undo value factor mem = Undefined DivideByZero) ∧
  (factor ≠ 0 → MultiplyCommand_undo value factor mem ≠ Undefined DivideByZero) ∧
  (factor ≠ 0 → ¬ (v = INT_MIN ∧ factor = -1) →
   MultiplyCommand_undo value factor mem =
     Returns tt (<[value:=v ÷ factor]> mem)
       ["  Undone: Multiply by " +:+ to_string factor
        +:+ " (result: " +:+ to_string (v ÷ factor) +:+ ")"]) ∧
  (∀ cs (mem0 : gmap nat Z) m mem1 out,
     valid_memory mem0 → Forall well_formed_call cs →
     perform_all cs fresh mem0 = Returns m mem1 out →
     ∃ m' mem' out', undo m mem1 = Returns m' mem' out').
Proof.
  intros Hv Hrv. rewrite (MultiplyCommand_undo_live _ _ _ _ Hv).
  repeat split.
  - intros ->. reflexivity.
  - intros Hf. apply Z.eqb_neq in Hf. rewrite Hf.
    destruct (representable (v ÷ factor)); discriminate.
  - intros Hf Hn. rewrite (quot_representable v factor Hrv Hf Hn).
    apply Z.eqb_neq in Hf. rewrite Hf. reflexivity.
  - intros cs mem0 m mem1 out Hv0 Hwf Hp.
    pose proof (perform_all_consistent cs fresh mem0 m mem1 out Hwf
                  (consistent_fresh mem0 Hv0) Hp) as Hc.
    destruct (undo_consistent m mem1 Hc) as (m' & mem' & out' & E & _).
    eauto.
Qed.

(** 30 divided by 2. *)
Lemma MultiplyCommand_undo_division_witness :
  MultiplyCommand_undo 0 2 {[0%nat := 30]} =
    Returns tt (<[0%nat:=30 ÷ 2]> {[0%nat := 30]})
      ["  Undone: Multiply by " +:+ to_string 2
       +:+ " (result: " +:+ to_string (30 ÷ 2) +:+ ")"].
Proof.
  refine (proj1 (proj2 (proj2
            (MultiplyCommand_undo_division 0 2 {[0%nat := 30]} 30 _ _))) _ _).
  - reflexivity.
  - reflexivity.
  - discriminate.
  - intros [H _]. discriminate H.
Defined.

(** C9 as stated fails: [factor ≠ 0] does not make the division defined.
    With [factor = -1] on a target holding [INT_MIN] the quotient overflows.
    An [undo] called by a [CommandManager] can get there with no earlier
    overflow: a manager executes [MultiplyCommand(value, -1)] on 0, a second
    manager executes [AddCommand(value, INT_MIN)] on the same variable, and
    the first manager's [undo] then divides [INT_MIN] by -1. *)
Lemma MultiplyCommand_undo_counterexample :
  -1 ≠ 0 ∧ representable INT_MIN = true ∧
  MultiplyCommand_undo 0 (-1) {[0%nat := INT_MIN]} = Undefined SignedOverflow ∧
  executeCommand (MultiplyCommand 0 (-1)) fresh {[0%nat := 0]} =
    Returns {| undoStack := [MultiplyCommand 0 (-1)]; redoStack := [] |}
      {[0%nat := 0]} ["  Executed: Multiply by -1 (result: 0)"] ∧
  executeCommand (AddCommand 0 INT_MIN) fresh {[0%nat := 0]} =
    Returns {| undoStack := [AddCommand 0 INT_MIN]; redoStack := [] |}
      {[0%nat := INT_MIN]}
      ["  Executed: Add -2147483648 (result: -2147483648)"] ∧
  undo {| undoStack := [MultiplyCommand 0 (-1)]; redoStack := [] |}
    {[0%nat := INT_MIN]} = Undefined SignedOverflow.
Proof. split; [discriminate|]. repeat split; vm_compute; reflexivity. Qed.

(** ** [executeCommand] and the redo history *)

(** C3.  [executeCommand] runs the command's [execute] first (and is
    undefined when that is), pushes the command on the undo stack and
    leaves the redo stack empty; a [redo] right after it changes neither
    the memory nor the stacks and only reports; before it, with a command
    to redo, [redo] would have changed the manager.  [undo] removes nothing
    from the redo stack, and what [redo] removes from it goes on the undo
    stack: only [executeCommand] discards redo entries. *)
Theorem executeCommand_clears_redo (cmd : Command) (m : CommandManager)
    (mem : gmap nat Z) :
  executeCommand cmd m mem =
    match Command_execute cmd mem with
    | Returns _ mem' out =>
        Returns {| undoStack := cmd :: undoStack m; redoStack := [] |} mem' out
    | Undefined why => Undefined why
    end ∧
  (∀ m1 mem1 out1,
     executeCommand cmd m mem = Returns m1 mem1 out1 →
     redo m1 mem1 = Returns m1 mem1 ["  Nothing to redo"]) ∧
  (∀ c r mem' out', redoStack m = c :: r → redo m mem ≠ Returns m mem' out') ∧
  (∀ m' mem' out',
     undo m mem = Returns m' mem' out' →
     ∃ moved, redoStack m' = moved ++ redoStack m) ∧
  (∀ m' mem' out',
     redo m mem = Returns m' mem' out' →
     ∃ moved, redoStack m = moved ++ redoStack m' ∧
              undoStack m' = rev moved ++ undoStack m).
Proof.
  split; [apply executeCommand_unfold|]. repeat split.
  - intros m1 mem1 out1. rewrite executeCommand_unfold.
    destruct (Command_execute cmd mem); [|discriminate].
    intros [= <- <- <-]. reflexivity.
  - intros c r mem' out' Hs. rewrite (redo_top c r) by exact Hs.
    destruct (Command_execute c mem); [|discriminate].
    intros [= E _ _]. apply (f_equal undoStack) in E. simpl in E.
    apply (f_equal length) in E. simpl in E. lia.
  - intros m' mem' out'. destruct (undoStack m) as [|c rest] eqn:Hs.
    + rewrite undo_nothing by exact Hs. intros [= <- _ _]. by exists [].
    + rewrite (undo_top c rest) by exact Hs.
      destruct (Command_undo c mem); [|discriminate].
      intros [= <- _ _]. by exists [c].
  - intros m' mem' out'. destruct (redoStack m) as [|c rest] eqn:Hs.
    + rewrite redo_nothing by exact Hs. intros [= <- _ _]. exists [].
      split; [simpl; by rewrite Hs|reflexivity].
    + rewrite (redo_top c rest) by exact Hs.
      destruct (Command_execute c mem); [|discriminate].
      intros [= <- _ _]. by exists [c].
Qed.

(** After two undos, [executeCommand(AddCommand(value, 1))] on 15 drops the
    two redo entries, and the following [redo] only reports. *)
Lemma executeCommand_clears_redo_witness :
  redo {| undoStack := [AddCommand 0 1; AddCommand 0 5]; redoStack := [] |}
    {[0%nat := 16]} =
  Returns {| undoStack := [AddCommand 0 1; AddCommand 0 5]; redoStack := [] |}
    {[0%nat := 16]} ["  Nothing to redo"].
Proof.
  refine (proj1 (proj2
            (executeCommand_clears_redo (AddCommand 0 1)
               {| undoStack := [AddCommand 0 5];
                  redoStack := [MultiplyCommand 0 2; AddCommand 0 10] |}
               {[0%nat := 15]}))
            _ _ ["  Executed: Add 1 (result: 16)"] _).
  vm_compute. reflexivity.
Defined.

(** ** The scenario of the specification *)

(** C4.  From 10: [AddCommand(5)] gives 15, [MultiplyCommand(2)] gives 30,
    [AddCommand(10)] gives 40; two undos give 15; one redo gives 30, with
    [AddCommand(10)] still on the redo stack; [executeCommand(AddCommand(1))]
    gives 31 and empties the redo stack, and the [redo] after it changes
    nothing and only reports. *)
Theorem scenario_values :
  value_after 0 = Some 10 ∧
  value_after 1 = Some 15 ∧
  value_after 2 = Some 30 ∧
  value_after 3 = Some 40 ∧
  value_after 5 = Some 15 ∧
  value_after 6 = Some 30 ∧
  state_after 6 =
    Returns {| undoStack := [MultiplyCommand 0 2; AddCommand 0 5];
               redoStack := [AddCommand 0 10] |}
      {[0%nat := 30]}
      ["  Executed: Add 5 (result: 15)";
       "  Executed: Multiply by 2 (result: 30)";
       "  Executed: Add 10 (result: 40)";
       "  Undone: Add 10 (result: 30)";
       "  Undone: Multiply by 2 (result: 15)";
       "  Executed: Multiply by 2 (result: 30)"] ∧
  value_after 7 = Some 31 ∧
  executeCommand (AddCommand 0 1)
    {| undoStack := [MultiplyCommand 0 2; AddCommand 0 5];
       redoStack := [AddCommand 0 10] |} {[0%nat := 30]} =
    Returns {| undoStack := [AddCommand 0 1; MultiplyCommand 0 2; AddCommand 0 5];
               redoStack := [] |}
      {[0%nat := 31]} ["  Executed: Add 1 (result: 31)"] ∧
  redo {| undoStack := [AddCommand 0 1; MultiplyCommand 0 2; AddCommand 0 5];
          redoStack := [] |} {[0%nat := 31]} =
    Returns {| undoStack := [AddCommand 0 1; MultiplyCommand 0 2; AddCommand 0 5];
               redoStack := [] |}
      {[0%nat := 31]} ["  Nothing to redo"] ∧
  value_after 8 = Some 31.
Proof. repeat split; vm_compute; reflexivity. Qed.

(** ** Empty stacks *)

(** C6.  On a manager whose undo stack is empty, and so on a fresh one,
    [undo] returns, the memory and both stacks are as before, and the only
    effect is the line it prints. *)
Theorem undo_on_empty_is_noop (m : CommandManager) (mem : gmap nat Z) :
  undoStack m = [] →
  undo m mem = Returns m mem ["  Nothing to undo"] ∧
  undo fresh mem = Returns fresh mem ["  Nothing to undo"].
Proof. intros Hs. split; apply undo_nothing; [exact Hs|reflexivity]. Qed.

Lemma undo_on_empty_is_noop_witness :
  undo {| undoStack := []; redoStack := [AddCommand 0 10] |} {[0%nat := 30]} =
    Returns {| undoStack := []; redoStack := [AddCommand 0 10] |}
      {[0%nat := 30]} ["  Nothing to undo"] ∧
  undo fresh {[0%nat := 30]} =
    Returns fresh {[0%nat := 30]} ["  Nothing to undo"].
Proof.
  apply (undo_on_empty_is_noop
           {| undoStack := []; redoStack := [AddCommand 0 10] |}).
  reflexivity.
Defined.

(** C7.  On a manager whose redo stack is empty, [redo] returns, the
    memory and both stacks are as before, and the only effect is the line
    it prints. *)
Theorem redo_on_empty_is_noop (m : CommandManager) (mem : gmap nat Z) :
  redoStack m = [] →
  redo m mem = Returns m mem ["  Nothing to redo"] ∧
  redo fresh mem = Returns fresh mem ["  Nothing to redo"].
Proof. intros Hs. split; apply redo_nothing; [exact Hs|reflexivity]. Qed.

Lemma redo_on_empty_is_noop_witness :
  redo {| undoStack := [AddCommand 0 5]; redoStack := [] |} {[0%nat := 15]} =
    Returns {| undoStack := [AddCommand 0 5]; redoStack := [] |}
      {[0%nat := 15]} ["  Nothing to redo"] ∧
  redo fresh {[0%nat := 15]} =
    Returns fresh {[0%nat := 15]} ["  Nothing to redo"].
Proof.
  apply (redo_on_empty_is_noop
           {| undoStack := [AddCommand 0 5]; redoStack := [] |}).
  reflexivity.
Defined.

(** ** Last in, first out *)

Lemma perform_all_pending cs : ∀ m (mem : gmap nat Z) m' mem' out,
  perform_all cs m mem = Returns m' mem' out →
  (undoStack m', redoStack m') = pending cs (undoStack m) (redoStack m).
Proof.
  induction cs as [|c cs IH]; intros m mem m' mem' out Hp.
  - simpl in Hp. unfold ret in Hp. by injection Hp as <- _ _.
  - simpl in Hp.
    apply bind_returns_inv in Hp as (m1 & mem1 & o1 & o2 & H1 & H2 & _).
    rewrite (IH _ _ _ _ _ H2). clear IH H2.
    destruct c as [cmd| |]; simpl in H1 |- *.
    + rewrite executeCommand_unfold in H1.
      destruct (Command_execute cmd mem); [|discriminate].
      by injection H1 as <- _ _.
    + destruct (undoStack m) as [|c rest] eqn:Hs.
      * rewrite undo_nothing in H1 by exact Hs. injection H1 as <- _ _.
        by rewrite Hs.
      * rewrite (undo_top c rest) in H1 by exact Hs.
        destruct (Command_undo c mem); [|discriminate].
        by injection H1 as <- _ _.
    + destruct (redoStack m) as [|c rest] eqn:Hs.
      * rewrite redo_nothing in H1 by exact Hs. injection H1 as <- _ _.
        by rewrite Hs.
      * rewrite (redo_top c rest) in H1 by exact Hs.
        destruct (Command_execute c mem); [|discriminate].
        by injection H1 as <- _ _.
Qed.

(** The memory at the top of a paired history is what executing its
    commands, oldest first, makes of the base. *)
Lemma undoable_replay (base mem : gmap nat Z) top :
  undoable base mem top →
  ∃ out, for_each Command_execute (rev top) base = Returns tt mem out.
Proof.
  induction 1 as [mem|base mem0 mem cmd rest [] out _ [out0 IH] _ _ Hex].
  - by exists [].
  - exists (out0 ++ out). simpl rev. rewrite for_each_app.
    eapply bind_returns; [exact IH|].
    rewrite for_each_cons. change (for_each Command_execute []) with (@ret unit tt).
    by rewrite bind_ret_r.
Qed.

(** C8, as amended.  Take a manager created empty on a memory of [int]s
    and any history of calls that returned, no command multiplying by
    zero.  Then the undo stack lists the commands executed and not yet
    undone and the redo stack those undone and not yet redone, most recent
    first, and the memory is what executing the commands of the undo stack,
    oldest first, makes of the initial memory.  With a command on the undo
    stack, [undo] returns, takes that top command and no other, gives back
    the memory in which it was executed (the memory made by the commands
    below it alone) and puts it on top of the redo stack.  With a command
    on the redo stack, [redo] returns, takes that top command and no other,
    executes it again, which gives the memory from which it was undone, and
    puts it on top of the undo stack. *)
Theorem undo_redo_are_lifo (cs : list call) (mem0 : gmap nat Z) m mem out :
  valid_memory mem0 → Forall well_formed_call cs →
  perform_all cs fresh mem0 = Returns m mem out →
  undoStack m = (pending cs [] []).1 ∧
  redoStack m = (pending cs [] []).2 ∧
  (∃ o, for_each Command_execute (rev (undoStack m)) mem0 = Returns tt mem o) ∧
  (∀ cmd rest, undoStack m = cmd :: rest →
     ∃ before out_e out_u,
       Command_execute cmd before = Returns tt mem out_e ∧
       Command_undo cmd mem = Returns tt before out_u ∧
       undo m mem =
         Returns {| undoStack := rest; redoStack := cmd :: redoStack m |}
           before out_u ∧
       ∃ o, for_each Command_execute (rev rest) mem0 = Returns tt before o) ∧
  (∀ cmd rest, redoStack m = cmd :: rest →
     ∃ after out_e out_u,
       Command_undo cmd after = Returns tt mem out_u ∧
       Command_execute cmd mem = Returns tt after out_e ∧
       redo m mem =
         Returns {| undoStack := cmd :: undoStack m; redoStack := rest |}
           after out_e ∧
       ∃ o, for_each Command_execute (rev (cmd :: undoStack m)) mem0
              = Returns tt after o).
Proof.
  intros Hv Hwf Hp.
  pose proof (perform_all_pending _ _ _ _ _ _ Hp) as E. simpl in E.
  destruct (perform_all_consistent cs fresh mem0 m mem out Hwf
              (consistent_fresh mem0 Hv) Hp) as [Hvm _ Hr].
  pose proof (perform_all_undoable cs fresh mem0 m mem out mem0 Hwf
                (consistent_fresh mem0 Hv) (undoable_nil mem0) Hp) as Hu.
  rewrite <- E. simpl. split; [done|]. split; [done|].
  split; [by apply undoable_replay|]. split.
  - intros cmd rest Hs. rewrite Hs in Hu.
    inversion Hu as [|? before ? ? ? [] out_e Hu0 Hv0 Hwf0 Hex]; subst.
    destruct (Command_undo_after_execute _ _ _ _ _ Hwf0 Hv0 Hex) as [out_u Hun].
    exists before, out_e, out_u. split; [done|]. split; [done|]. split.
    + by rewrite (undo_top cmd rest), Hun.
    + by apply undoable_replay.
  - intros cmd rest Hs. rewrite Hs in Hr.
    inversion Hr as [|? after ? ? [] out_e Hwf0 Hex Hr1]; subst.
    destruct (Command_undo_after_execute _ _ _ _ _ Hwf0 Hvm Hex) as [out_u Hun].
    exists after, out_e, out_u. split; [done|]. split; [done|]. split.
    + by rewrite (redo_top cmd rest), Hex.
    + apply (undoable_replay mem0 after (cmd :: undoStack m)).
      eauto with history.
Qed.

(** After the six calls of [main] the undo stack holds [MultiplyCommand(2)]
    on [AddCommand(5)], and the value 30 is 10 plus 5, times 2. *)
Lemma undo_redo_are_lifo_witness :
  ∃ o, for_each Command_execute
         (rev [MultiplyCommand 0 2; AddCommand 0 5]) main_memory
       = Returns tt {[0%nat := 30]} o.
Proof.
  refine (proj1 (proj2 (proj2
            (undo_redo_are_lifo main_calls main_memory
               {| undoStack := [MultiplyCommand 0 2; AddCommand 0 5];
                  redoStack := [AddCommand 0 10] |}
               {[0%nat := 30]}
               ["  Executed: Add 5 (result: 15)";
                "  Executed: Multiply by 2 (result: 30)";
                "  Executed: Add 10 (result: 40)";
                "  Undone: Add 10 (result: 30)";
                "  Undone: Multiply by 2 (result: 15)";
                "  Executed: Multiply by 2 (result: 30)"] _ _ _)))).
  - apply map_Forall_singleton. reflexivity.
  - repeat constructor; discriminate.
  - vm_compute. reflexivity.
Defined.

(** C8 as stated fails in a reachable state.  After
    [executeCommand(AddCommand(value, 2))] and
    [executeCommand(MultiplyCommand(value, 0))] on 5 the undo stack is not
    empty, and [undo] divides by zero instead of reversing the
    multiplication. *)
Lemma undo_redo_are_lifo_counterexample :
  perform_all [ExecuteCommand (AddCommand 0 2);
               ExecuteCommand (MultiplyCommand 0 0)] fresh {[0%nat := 5]} =
    Returns {| undoStack := [MultiplyCommand 0 0; AddCommand 0 2];
               redoStack := [] |}
      {[0%nat := 0]}
      ["  Executed: Add 2 (result: 7)";
       "  Executed: Multiply by 0 (result: 0)"] ∧
  undo {| undoStack := [MultiplyCommand 0 0; AddCommand 0 2];
          redoStack := [] |} {[0%nat := 0]} = Undefined DivideByZero.
Proof. split; vm_compute; reflexivity. Qed.

(** ** How many commands a manager owns *)

(** C10.  A call of [undo] or of [redo] that returns leaves the number of
    owned commands unchanged: with an empty source stack the manager is
    unchanged, otherwise the top command moves to the other stack.  After
    [executeCommand] the manager owns the former undo stack and the new
    command, whatever the redo stack held. *)
Theorem undo_redo_preserve_owned (m : CommandManager) (mem : gmap nat Z)
    m' mem' out :
  (undo m mem = Returns m' mem' out →
   owned m' = owned m ∧
   match undoStack m with
   | [] => m' = m
   | cmd :: rest => undoStack m' = rest ∧ redoStack m' = cmd :: redoStack m
   end) ∧
  (redo m mem = Returns m' mem' out →
   owned m' = owned m ∧
   match redoStack m with
   | [] => m' = m
   | cmd :: rest => redoStack m' = rest ∧ undoStack m' = cmd :: undoStack m
   end) ∧
  (∀ cmd, executeCommand cmd m mem = Returns m' mem' out →
          owned m' = S (length (undoStack m))).
Proof.
  unfold owned. split; [|split].
  - destruct (undoStack m) as [|c rest] eqn:Hs.
    + rewrite undo_nothing by exact Hs. intros [= <- _ _]. by rewrite Hs.
    + rewrite (undo_top c rest) by exact Hs.
      destruct (Command_undo c mem); [|discriminate].
      intros [= <- _ _]. simpl. split; [lia|done].
  - destruct (redoStack m) as [|c rest] eqn:Hs.
    + rewrite redo_nothing by exact Hs. intros [= <- _ _]. by rewrite Hs.
    + rewrite (redo_top c rest) by exact Hs.
      destruct (Command_execute c mem); [|discriminate].
      intros [= <- _ _]. simpl. split; [lia|done].
  - intros cmd. rewrite executeCommand_unfold.
    destruct (Command_execute cmd mem); [|discriminate].
    intros [= <- _ _]. simpl. lia.
Qed.

(** The second undo of [main]: two commands on the undo stack and one on
    the redo stack before, one and two after. *)
Lemma undo_redo_preserve_owned_witness :
  owned {| undoStack := [AddCommand 0 5];
           redoStack := [MultiplyCommand 0 2; AddCommand 0 10] |} =
  owned {| undoStack := [MultiplyCommand 0 2; AddCommand 0 5];
           redoStack := [AddCommand 0 10] |}.
Proof.
  refine (proj1 (proj1
            (undo_redo_preserve_owned
               {| undoStack := [MultiplyCommand 0 2; AddCommand 0 5];
                  redoStack := [AddCommand 0 10] |}
               {[0%nat := 30]}
               {| undoStack := [AddCommand 0 5];
                  redoStack := [MultiplyCommand 0 2; AddCommand 0 10] |}
               {[0%nat := 15]}
               ["  Undone: Multiply by 2 (result: 15)"]) _)).
  vm_compute. reflexivity.
Defined.

(** * Further properties of the command manager *)

Lemma Command_undo_returns (mem mem' : gmap nat Z) cmd u out :
  Command_undo cmd mem = Returns u mem' out →
  ∃ v v', mem !! target cmd = Some v ∧ representable v' = true ∧
          mem' = <[target cmd:=v']> mem ∧ length out = 1%nat.
Proof.
  intros Hun. destruct (mem !! target cmd) as [v|] eqn:Hv.
  - destruct cmd as [value amount|value factor]; simpl in Hv, Hun.
    + rewrite (AddCommand_undo_live _ _ _ _ Hv) in Hun.
      destruct (representable (v - amount)) eqn:Hr; [|discriminate].
      injection Hun as _ <- <-. eauto 10.
    + rewrite (MultiplyCommand_undo_live _ _ _ _ Hv) in Hun.
      destruct (factor =? 0); [discriminate|].
      destruct (representable (v ÷ factor)) eqn:Hr; [|discriminate].
      injection Hun as _ <- <-. eauto 10.
  - destruct (Command_dangling mem cmd Hv) as [_ E]. congruence.
Qed.

Lemma Command_execute_one_line (mem mem' : gmap nat Z) cmd u out :
  Command_execute cmd mem = Returns u mem' out → length out = 1%nat.
Proof.
  intros Hex. destruct (mem !! target cmd) as [v|] eqn:Hv.
  - destruct cmd as [value amount|value factor]; simpl in Hv, Hex.
    + rewrite (AddCommand_execute_live _ _ _ _ Hv) in Hex.
      destruct (representable (v + amount)); [|discriminate].
      by injection Hex as _ _ <-.
    + rewrite (MultiplyCommand_execute_live _ _ _ _ Hv) in Hex.
      destruct (representable (v * factor)); [|discriminate].
      by injection Hex as _ _ <-.
  - destruct (Command_dangling mem cmd Hv) as [E _]. congruence.
Qed.

(** X1.  Whatever well-formed history of executes, undos and redos a
    manager went through since it was created, undoing everything that is
    still on its undo stack returns, and gives back the memory the manager
    was created on. *)
Theorem undo_everything_gives_initial_memory (cs : list call)
    (mem0 : gmap nat Z) m mem out :
  valid_memory mem0 → Forall well_formed_call cs →
  perform_all cs fresh mem0 = Returns m mem out →
  ∃ out',
    repeat_call undo (length (undoStack m)) m mem =
      Returns {| undoStack := [];
                 redoStack := rev (undoStack m) ++ redoStack m |} mem0 out'.
Proof.
  intros Hv Hwf Hp.
  pose proof (perform_all_undoable cs fresh mem0 m mem out mem0 Hwf
                (consistent_fresh mem0 Hv) (undoable_nil mem0) Hp) as Hu.
  apply (repeat_undo_undoable (undoStack m) m mem mem0 []); [|exact Hu].
  by rewrite app_nil_r.
Qed.

Lemma undo_everything_gives_initial_memory_witness :
  ∃ out',
    repeat_call undo 2
      {| undoStack := [MultiplyCommand 0 2; AddCommand 0 5];
         redoStack := [AddCommand 0 10] |} {[0%nat := 30]} =
      Returns {| undoStack := [];
                 redoStack := rev [MultiplyCommand 0 2; AddCommand 0 5]
                              ++ [AddCommand 0 10] |} main_memory out'.
Proof.
  apply (undo_everything_gives_initial_memory main_calls main_memory
           {| undoStack := [MultiplyCommand 0 2; AddCommand 0 5];
              redoStack := [AddCommand 0 10] |} {[0%nat := 30]}
           ["  Executed: Add 5 (result: 15)";
            "  Executed: Multiply by 2 (result: 30)";
            "  Executed: Add 10 (result: 40)";
            "  Undone: Add 10 (result: 30)";
            "  Undone: Multiply by 2 (result: 15)";
            "  Executed: Multiply by 2 (result: 30)"]).
  - apply map_Forall_singleton. reflexivity.
  - repeat constructor; discriminate.
  - vm_compute. reflexivity.
Defined.

(** X2.  In a state reached by a well-formed history, with something to
    undo, [undo] followed by [redo] returns and leaves the manager and the
    memory exactly as they were. *)
Theorem undo_then_redo_is_identity (cs : list call) (mem0 : gmap nat Z)
    m mem out :
  valid_memory mem0 → Forall well_formed_call cs →
  perform_all cs fresh mem0 = Returns m mem out →
  undoStack m ≠ [] →
  ∃ m1 mem1 out1 out2,
    undo m mem = Returns m1 mem1 out1 ∧ redo m1 mem1 = Returns m mem out2.
Proof.
  intros Hv Hwf Hp Hne.
  destruct (perform_all_consistent cs fresh mem0 m mem out Hwf
              (consistent_fresh mem0 Hv) Hp) as [_ [base Hu] _].
  destruct (undoStack m) as [|cmd rest] eqn:Hs; [done|].
  inversion Hu as [|? mem1 ? ? ? u out0 Hu0 Hv0 Hwf0 Hex]; subst.
  destruct (Command_undo_after_execute _ _ _ _ _ Hwf0 Hv0 Hex) as [out' Hun].
  exists {| undoStack := rest; redoStack := cmd :: redoStack m |}, mem1, out', out0.
  split.
  - rewrite (undo_top cmd rest), Hun by exact Hs. reflexivity.
  - rewrite (redo_top cmd (redoStack m)), Hex by reflexivity.
    simpl. rewrite <- Hs. destruct m; reflexivity.
Qed.

Lemma undo_then_redo_is_identity_witness :
  ∃ m1 mem1 out1 out2,
    undo {| undoStack := [MultiplyCommand 0 2; AddCommand 0 5];
            redoStack := [AddCommand 0 10] |} {[0%nat := 30]} =
      Returns m1 mem1 out1 ∧
    redo m1 mem1 =
      Returns {| undoStack := [MultiplyCommand 0 2; AddCommand 0 5];
                 redoStack := [AddCommand 0 10] |} {[0%nat := 30]} out2.
Proof.
  apply (undo_then_redo_is_identity main_calls main_memory _ _
           ["  Executed: Add 5 (result: 15)";
            "  Executed: Multiply by 2 (result: 30)";
            "  Executed: Add 10 (result: 40)";
            "  Undone: Add 10 (result: 30)";
            "  Undone: Multiply by 2 (result: 15)";
            "  Executed: Multiply by 2 (result: 30)"]).
  - apply map_Forall_singleton. reflexivity.
  - repeat constructor; discriminate.
  - vm_compute. reflexivity.
  - discriminate.
Defined.

(** X3.  In a state reached by a well-formed history, [redo] always
    returns (re-executing never overflows), and with something to redo,
    [redo] followed by [undo] leaves the manager and the memory exactly as
    they were. *)
Theorem redo_then_undo_is_identity (cs : list call) (mem0 : gmap nat Z)
    m mem out :
  valid_memory mem0 → Forall well_formed_call cs →
  perform_all cs fresh mem0 = Returns m mem out →
  ∃ m1 mem1 out1,
    redo m mem = Returns m1 mem1 out1 ∧
    (redoStack m ≠ [] → ∃ out2, undo m1 mem1 = Returns m mem out2).
Proof.
  intros Hv Hwf Hp.
  destruct (perform_all_consistent cs fresh mem0 m mem out Hwf
              (consistent_fresh mem0 Hv) Hp) as [Hvm _ Hr].
  destruct (redoStack m) as [|cmd rest] eqn:Hs.
  - exists m, mem, ["  Nothing to redo"]. split; [by apply redo_nothing|done].
  - inversion Hr as [|? mem1 ? ? u out0 Hwf0 Hex Hr1]; subst.
    destruct (Command_undo_after_execute _ _ _ _ _ Hwf0 Hvm Hex) as [out' Hun].
    exists {| undoStack := cmd :: undoStack m; redoStack := rest |}, mem1, out0.
    split.
    + rewrite (redo_top cmd rest), Hex by exact Hs. reflexivity.
    + intros _. exists out'.
      rewrite (undo_top cmd (undoStack m)), Hun by reflexivity.
      simpl. rewrite <- Hs. destruct m; reflexivity.
Qed.

Lemma redo_then_undo_is_identity_witness :
  ∃ m1 mem1 out1,
    redo {| undoStack := [MultiplyCommand 0 2; AddCommand 0 5];
            redoStack := [AddCommand 0 10] |} {[0%nat := 30]} =
      Returns m1 mem1 out1 ∧
    ([AddCommand 0 10] ≠ [] →
     ∃ out2, undo m1 mem1 =
       Returns {| undoStack := [MultiplyCommand 0 2; AddCommand 0 5];
                  redoStack := [AddCommand 0 10] |} {[0%nat := 30]} out2).
Proof.
  apply (redo_then_undo_is_identity main_calls main_memory
           {| undoStack := [MultiplyCommand 0 2; AddCommand 0 5];
              redoStack := [AddCommand 0 10] |} {[0%nat := 30]}
           ["  Executed: Add 5 (result: 15)";
            "  Executed: Multiply by 2 (result: 30)";
            "  Executed: Add 10 (result: 40)";
            "  Undone: Add 10 (result: 30)";
            "  Undone: Multiply by 2 (result: 15)";
            "  Executed: Multiply by 2 (result: 30)"]).
  - apply map_Forall_singleton. reflexivity.
  - repeat constructor; discriminate.
  - vm_compute. reflexivity.
Defined.

(** ** What a manager touches, and what it prints *)

Lemma perform_frame (r : nat) c m (mem : gmap nat Z) m' mem' out :
  Forall (λ cmd, target cmd ≠ r) (undoStack m) →
  Forall (λ cmd, target cmd ≠ r) (redoStack m) →
  (∀ cmd, c = ExecuteCommand cmd → target cmd ≠ r) →
  perform c m mem = Returns m' mem' out →
  mem' !! r = mem !! r ∧ dom mem' = dom mem ∧ length out = 1%nat ∧
  Forall (λ cmd, target cmd ≠ r) (undoStack m') ∧
  Forall (λ cmd, target cmd ≠ r) (redoStack m').
Proof.
  intros Hu Hr Hc Hp. destruct c as [cmd| |]; simpl in Hp.
  - rewrite executeCommand_unfold in Hp.
    destruct (Command_execute cmd mem) as [u mem1 out1|] eqn:Hex; [|discriminate].
    injection Hp as <- <- <-.
    pose proof (Command_execute_one_line _ _ _ _ _ Hex) as Hl.
    destruct (Command_execute_returns _ _ _ _ _ Hex) as (v & v' & Hv & _ & -> & _).
    rewrite lookup_insert_ne by (by apply Hc).
    rewrite dom_insert_lookup_L by eauto. simpl. auto 10.
  - destruct (undoStack m) as [|cmd rest] eqn:Hs.
    + rewrite undo_nothing in Hp by exact Hs. injection Hp as <- <- <-.
      rewrite Hs. auto 10.
    + rewrite (undo_top cmd rest) in Hp by exact Hs.
      destruct (Command_undo cmd mem) as [u mem1 out1|] eqn:Hun; [|discriminate].
      injection Hp as <- <- <-. inversion Hu as [|? ? Hcmd Hrest]; subst.
      destruct (Command_undo_returns _ _ _ _ _ Hun) as (v & v' & Hv & _ & -> & Hl).
      rewrite lookup_insert_ne by done.
      rewrite dom_insert_lookup_L by eauto. simpl. auto 10.
  - destruct (redoStack m) as [|cmd rest] eqn:Hs.
    + rewrite redo_nothing in Hp by exact Hs. injection Hp as <- <- <-.
      rewrite Hs. auto 10.
    + rewrite (redo_top cmd rest) in Hp by exact Hs.
      destruct (Command_execute cmd mem) as [u mem1 out1|] eqn:Hex; [|discriminate].
      injection Hp as <- <- <-. inversion Hr as [|? ? Hcmd Hrest]; subst.
      pose proof (Command_execute_one_line _ _ _ _ _ Hex) as Hl.
      destruct (Command_execute_returns _ _ _ _ _ Hex) as (v & v' & Hv & _ & -> & _).
      rewrite lookup_insert_ne by done.
      rewrite dom_insert_lookup_L by eauto. simpl. auto 10.
Qed.

Lemma perform_all_frame (r : nat) cs : ∀ m (mem : gmap nat Z) m' mem' out,
  Forall (λ cmd, target cmd ≠ r) (undoStack m) →
  Forall (λ cmd, target cmd ≠ r) (redoStack m) →
  Forall (λ c, ∀ cmd, c = ExecuteCommand cmd → target cmd ≠ r) cs →
  perform_all cs m mem = Returns m' mem' out →
  mem' !! r = mem !! r ∧ dom mem' = dom mem ∧ length out = length cs.
Proof.
  induction cs as [|c cs IH]; intros m mem m' mem' out Hu Hr Hcs Hp.
  - simpl in Hp. unfold ret in Hp. by injection Hp as _ <- <-.
  - inversion Hcs as [|? ? Hc Hcs']; subst. simpl in Hp.
    apply bind_returns_inv in Hp as (m1 & mem1 & o1 & o2 & H1 & H2 & ->).
    destruct (perform_frame r _ _ _ _ _ _ Hu Hr Hc H1) as (E1 & D1 & L1 & Hu1 & Hr1).
    destruct (IH _ _ _ _ _ Hu1 Hr1 Hcs' H2) as (E2 & D2 & L2).
    rewrite E2, E1, D2, D1, length_app, L1, L2. auto.
Qed.

(** X4.  A manager only writes to the targets of the commands it was
    given: a variable that no executed command targets holds, after any
    history of calls that returned, the value it held when the manager was
    created; and no variable appears or disappears. *)
Theorem manager_writes_only_to_targets (r : nat) (cs : list call)
    (mem0 : gmap nat Z) m mem out :
  Forall (λ c, ∀ cmd, c = ExecuteCommand cmd → target cmd ≠ r) cs →
  perform_all cs fresh mem0 = Returns m mem out →
  value_at r mem = value_at r mem0 ∧ dom mem = dom mem0.
Proof.
  intros Hcs Hp.
  destruct (perform_all_frame r cs fresh mem0 m mem out
              ltac:(constructor) ltac:(constructor) Hcs Hp) as (E & D & _).
  auto.
Qed.

Lemma manager_writes_only_to_targets_witness :
  value_at 1 ({[0%nat := 30; 1%nat := 7]} : gmap nat Z)
    = value_at 1 ({[0%nat := 10; 1%nat := 7]} : gmap nat Z) ∧
  dom ({[0%nat := 30; 1%nat := 7]} : gmap nat Z)
    = dom ({[0%nat := 10; 1%nat := 7]} : gmap nat Z).
Proof.
  apply (manager_writes_only_to_targets 1 main_calls
           {[0%nat := 10; 1%nat := 7]}
           {| undoStack := [MultiplyCommand 0 2; AddCommand 0 5];
              redoStack := [AddCommand 0 10] |}
           {[0%nat := 30; 1%nat := 7]}
           ["  Executed: Add 5 (result: 15)";
            "  Executed: Multiply by 2 (result: 30)";
            "  Executed: Add 10 (result: 40)";
            "  Undone: Add 10 (result: 30)";
            "  Undone: Multiply by 2 (result: 15)";
            "  Executed: Multiply by 2 (result: 30)"]).
  - repeat constructor; intros cmd [= <-]; discriminate.
  - vm_compute. reflexivity.
Defined.

(** X5.  Every call of [executeCommand], [undo] or [redo] that returns
    writes exactly one line, the empty-stack reports included: a history
    of [n] calls writes [n] lines. *)
Theorem one_line_per_call (cs : list call) (m : CommandManager)
    (mem : gmap nat Z) m' mem' out :
  perform_all cs m mem = Returns m' mem' out → length out = length cs.
Proof.
  revert m mem m' mem' out.
  induction cs as [|c cs IH]; intros m mem m' mem' out Hp.
  - simpl in Hp. unfold ret in Hp. by injection Hp as _ _ <-.
  - simpl in Hp.
    apply bind_returns_inv in Hp as (m1 & mem1 & o1 & o2 & H1 & H2 & ->).
    rewrite length_app, (IH _ _ _ _ _ H2).
    cut (length o1 = 1%nat); [simpl; lia|].
    destruct c as [cmd| |]; simpl in H1.
    + rewrite executeCommand_unfold in H1.
      destruct (Command_execute cmd mem) eqn:Hex; [|discriminate].
      injection H1 as _ _ <-. eapply Command_execute_one_line; eauto.
    + destruct (undoStack m) as [|cmd rest] eqn:Hs.
      * rewrite undo_nothing in H1 by exact Hs. by injection H1 as _ _ <-.
      * rewrite (undo_top cmd rest) in H1 by exact Hs.
        destruct (Command_undo cmd mem) eqn:Hun; [|discriminate].
        injection H1 as _ _ <-.
        by destruct (Command_undo_returns _ _ _ _ _ Hun) as (? & ? & _ & _ & _ & ?).
    + destruct (redoStack m) as [|cmd rest] eqn:Hs.
      * rewrite redo_nothing in H1 by exact Hs. by injection H1 as _ _ <-.
      * rewrite (redo_top cmd rest) in H1 by exact Hs.
        destruct (Command_execute cmd mem) eqn:Hex; [|discriminate].
        injection H1 as _ _ <-. eapply Command_execute_one_line; eauto.
Qed.

Lemma one_line_per_call_witness :
  length ["  Nothing to undo"; "  Executed: Add 5 (result: 15)";
          "  Nothing to redo"] = length [Undo; ExecuteCommand (AddCommand 0 5); Redo].
Proof.
  apply (one_line_per_call [Undo; ExecuteCommand (AddCommand 0 5); Redo]
           fresh main_memory
           {| undoStack := [AddCommand 0 5]; redoStack := [] |}
           {[0%nat := 15]}).
  vm_compute. reflexivity.
Defined.

(** ** A command undone out of sequence *)

Lemma rem_between a b : 0 ≤ a → b ≠ 0 → 0 ≤ Z.rem a b ≤ a.
Proof.
  intros Ha Hb. rewrite <- (Z.rem_abs_r a b) by exact Hb.
  assert (0 < Z.abs b) as Hab by lia.
  pose proof (Z.rem_bound_pos a (Z.abs b) Ha Hab).
  pose proof (Z.quot_pos a (Z.abs b) Ha Hab).
  pose proof (Z.quot_rem' a (Z.abs b)). nia.
Qed.

Lemma quot_mul_representable v f :
  representable v = true → f ≠ 0 →
  representable (v ÷ f * f) = true ∧ v ÷ f * f = v - Z.rem v f.
Proof.
  rewrite !representable_bounds. unfold INT_MIN, INT_MAX. intros Hv Hf.
  pose proof (Z.quot_rem' v f) as E.
  assert (v ÷ f * f = v - Z.rem v f) as E2 by lia.
  split; [|exact E2]. rewrite E2.
  destruct (Z.le_gt_cases 0 v) as [Hp|Hn].
  - pose proof (rem_between v f Hp Hf). lia.
  - pose proof (rem_between (- v) f ltac:(lia) Hf) as Hb.
    rewrite Z.rem_opp_l in Hb by exact Hf. lia.
Qed.

(** X6.  [MultiplyCommand::undo] is not an inverse on its own: called on a
    value [v] that its [execute] did not produce, and followed by
    [execute], it leaves [v] minus the remainder of [v] by [factor], so [v]
    comes back exactly when [factor] divides it. *)
Theorem MultiplyCommand_undo_then_execute (value : nat) (factor : Z)
    (mem : gmap nat Z) (v : Z) :
  mem !! value = Some v → representable v = true →
  factor ≠ 0 → ¬ (v = INT_MIN ∧ factor = -1) →
  bind (MultiplyCommand_undo value factor)
       (λ _, MultiplyCommand_execute value factor) mem =
    Returns tt (<[value:=v - Z.rem v factor]> mem)
      ["  Undone: Multiply by " +:+ to_string factor
       +:+ " (result: " +:+ to_string (v ÷ factor) +:+ ")";
       "  Executed: Multiply by " +:+ to_string factor
       +:+ " (result: " +:+ to_string (v - Z.rem v factor) +:+ ")"] ∧
  (v - Z.rem v factor = v ↔ Z.rem v factor = 0).
Proof.
  intros Hv Hrv Hf Hn. split; [|lia].
  destruct (quot_mul_representable v factor Hrv Hf) as [Hr E].
  unfold bind. rewrite (MultiplyCommand_undo_live _ _ _ _ Hv).
  rewrite (quot_representable v factor Hrv Hf Hn).
  apply Z.eqb_neq in Hf. rewrite Hf.
  rewrite (MultiplyCommand_execute_live _ _ _ (v ÷ factor))
    by apply lookup_insert_eq.
  rewrite Hr, insert_insert_eq, E. reflexivity.
Qed.

(** 7 divided by 2 and multiplied by 2 is 6. *)
Lemma MultiplyCommand_undo_then_execute_witness :
  bind (MultiplyCommand_undo 0 2) (λ _, MultiplyCommand_execute 0 2)
    {[0%nat := 7]} =
    Returns tt (<[0%nat:=7 - Z.rem 7 2]> {[0%nat := 7]})
      ["  Undone: Multiply by " +:+ to_string 2
       +:+ " (result: " +:+ to_string (7 ÷ 2) +:+ ")";
       "  Executed: Multiply by " +:+ to_string 2
       +:+ " (result: " +:+ to_string (7 - Z.rem 7 2) +:+ ")"] ∧
  (7 - Z.rem 7 2 = 7 ↔ Z.rem 7 2 = 0).
Proof.
  apply (MultiplyCommand_undo_then_execute 0 2 {[0%nat := 7]} 7).
  - reflexivity.
  - reflexivity.
  - discriminate.
  - intros [H _]. discriminate H.
Defined.

(** * [DatabaseConnection] *)

Lemma db_perform_all_app cs1 cs2 db (mem : gmap nat Z) :
  db_perform_all (cs1 ++ cs2) db mem =
  bind (db_perform_all cs1 db) (db_perform_all cs2) mem.
Proof.
  revert db mem. induction cs1 as [|c cs1 IH]; intros db mem.
  - simpl. by rewrite bind_ret_l.
  - simpl. rewrite bind_assoc. apply bind_ext. intros db1 mem1. apply IH.
Qed.

Lemma db_queries_connected sqls db (mem : gmap nat Z) :
  connected db = true →
  db_perform_all (Query <$> sqls) db mem =
    Returns db mem ((λ sql, "  Executing: " +:+ sql) <$> sqls).
Proof.
  intros Hc. revert mem. induction sqls as [|sql sqls IH]; intros mem.
  - reflexivity.
  - rewrite !fmap_cons. simpl.
    unfold bind at 1, db_perform, DatabaseConnection_query, bind, ret, print_line.
    rewrite Hc, IH. reflexivity.
Qed.

Lemma db_calls_disconnected cs db (mem : gmap nat Z) :
  connected db = false →
  db_perform_all cs db mem =
    Returns db mem
      (replicate
         (count_if (λ c, match c with Disconnect => true | Query _ => false end) cs)
         "  [DB Manually disconnected]").
Proof.
  intros Hc. revert mem. induction cs as [|c cs IH]; intros mem.
  - reflexivity.
  - destruct c as [sql|]; simpl;
      unfold bind at 1, db_perform, DatabaseConnection_query,
        DatabaseConnection_disconnect, bind, ret, print_line.
    + rewrite Hc, IH. reflexivity.
    + replace {| connectionString := connectionString db; connected := false |}
        with db by (destruct db; simpl in Hc; by subst).
      rewrite IH. reflexivity.
Qed.

(** X7.  A connection that is never disconnected by hand is closed exactly
    once, when its owner leaves the block: the block prints the connection
    line, one line per query in order, and the disconnection line last. *)
Theorem db_scope_closes_connection (connStr : string) (sqls : list string)
    (mem : gmap nat Z) :
  db_scope connStr (Query <$> sqls) mem =
    Returns tt mem
      (["  [DB Connected: " +:+ connStr +:+ "]"]
       ++ ((λ sql, "  Executing: " +:+ sql) <$> sqls)
       ++ ["  [DB Disconnected: " +:+ connStr +:+ "]"]).
Proof.
  unfold db_scope, bind, DatabaseConnection_new, bind, ret, print_line.
  rewrite db_queries_connected by reflexivity. simpl.
  unfold DatabaseConnection_delete, print_line. simpl.
  reflexivity.
Qed.

(** X8.  After [disconnect()] a connection stays disconnected: the later
    queries print nothing, the destructor prints nothing, and every further
    [disconnect()] prints its line again.  The block prints the connection
    line, the queries made before the first [disconnect()], and one
    manual-disconnection line per [disconnect()]. *)
Theorem db_scope_after_disconnect (connStr : string) (sqls : list string)
    (after : list db_call) (mem : gmap nat Z) :
  db_scope connStr ((Query <$> sqls) ++ Disconnect :: after) mem =
    Returns tt mem
      (["  [DB Connected: " +:+ connStr +:+ "]"]
       ++ ((λ sql, "  Executing: " +:+ sql) <$> sqls)
       ++ replicate
            (S (count_if
                  (λ c, match c with Disconnect => true | Query _ => false end)
                  after))
            "  [DB Manually disconnected]").
Proof.
  unfold db_scope, bind at 1, DatabaseConnection_new, bind at 1, ret at 1,
    print_line at 1.
  unfold bind at 1. rewrite db_perform_all_app. unfold bind at 1.
  rewrite db_queries_connected by reflexivity.
  simpl db_perform_all. unfold bind at 1. simpl db_perform.
  unfold DatabaseConnection_disconnect, bind at 1, print_line at 1, ret at 1.
  simpl connectionString.
  rewrite db_calls_disconnected by reflexivity.
  unfold DatabaseConnection_delete. simpl. unfold ret.
  rewrite !app_nil_r. reflexivity.
Qed.

(** * The shape factory *)


(** * [Subject] and its observers *)

Lemma count_if_app {A} (pred : A → bool) l1 l2 :
  count_if pred (l1 ++ l2) = (count_if pred l1 + count_if pred l2)%nat.
Proof. induction l1 as [|x l1 IH]; simpl; [done|]. rewrite IH. lia. Qed.

Lemma count_if_erase_remove_if {A} (pred : A → bool) l :
  count_if (λ x, negb (pred x)) l = length (erase_remove_if pred l) ∧
  count_if (λ x, negb (pred x)) (erase_remove_if pred l)
    = count_if (λ x, negb (pred x)) l ∧
  Forall (λ x, pred x = false) (erase_remove_if pred l).
Proof.
  induction l as [|x l (IH1 & IH2 & IH3)]; simpl; [by repeat constructor|].
  destruct (pred x) eqn:Hx; simpl; [auto|].
  rewrite Hx. simpl. repeat split; [lia|lia|by constructor].
Qed.

Lemma erase_remove_if_id {A} (pred : A → bool) l :
  Forall (λ x, pred x = false) l → erase_remove_if pred l = l.
Proof.
  induction 1 as [|x l Hx _ IH]; simpl; [done|]. by rewrite Hx, IH.
Qed.

(** The loop of [notify] over the purged list. *)
Lemma Subject_notify_loop message (alive : gmap nat ConcreteObserver) l
    (mem : gmap nat Z) :
  for_each (λ weakObs : option nat,
              match lock weakObs alive with
              | Some obs =>
                  match alive !! obs with
                  | Some o => ConcreteObserver_onNotify message o
                  | None => ret tt
                  end
              | None => ret tt
              end)
    (erase_remove_if (λ wp, expired wp alive) l) mem =
  Returns tt mem
    ((λ o, "  " +:+ name o +:+ " received: " +:+ message)
       <$> omap (λ wp : option nat, wp ≫= λ id, alive !! id) l).
Proof.
  set (body := λ weakObs : option nat, _).
  induction l as [|wp l IH]; [reflexivity|].
  destruct wp as [id|]; [|exact IH].
  change (erase_remove_if (λ wp, expired wp alive) (Some id :: l))
    with (if expired (Some id) alive
          then erase_remove_if (λ wp, expired wp alive) l
          else Some id :: erase_remove_if (λ wp, expired wp alive) l).
  cbn [omap list_omap mbind option_bind]. unfold expired at 1.
  destruct (alive !! id) as [o|] eqn:Ho; [|exact IH].
  rewrite for_each_cons. unfold bind.
  assert (body (Some id) mem =
          Returns tt mem ["  " +:+ name o +:+ " received: " +:+ message]) as ->.
  { unfold body, lock. rewrite Ho. cbn beta iota. rewrite Ho. reflexivity. }
  rewrite IH. reflexivity.
Qed.

Lemma omap_live_length (alive : gmap nat ConcreteObserver) l :
  length (omap (λ wp : option nat, wp ≫= λ id, alive !! id) l) =
  count_if (λ wp, negb (expired wp alive)) l.
Proof.
  induction l as [|wp l IH]; [reflexivity|].
  cbn [omap list_omap count_if]. unfold expired at 1.
  destruct wp as [id|]; simpl; [|exact IH].
  destruct (alive !! id); simpl; by rewrite IH.
Qed.

Lemma omap_live_erase (alive : gmap nat ConcreteObserver) l :
  omap (λ wp : option nat, wp ≫= λ id, alive !! id)
    (erase_remove_if (λ wp, expired wp alive) l) =
  omap (λ wp : option nat, wp ≫= λ id, alive !! id) l.
Proof.
  induction l as [|wp l IH]; [reflexivity|].
  destruct wp as [id|]; [|exact IH].
  destruct (alive !! id) eqn:Ho; cbn; rewrite Ho; cbn; rewrite ?Ho;
    by rewrite IH.
Qed.

Lemma Subject_notify_unfold message (alive : gmap nat ConcreteObserver) s
    (mem : gmap nat Z) :
  Subject_notify message alive s mem =
    Returns {| observers :=
                 erase_remove_if (λ wp, expired wp alive) (observers s) |}
      mem
      ("  Notifying observers..."
       :: ((λ o, "  " +:+ name o +:+ " received: " +:+ message)
             <$> omap (λ wp : option nat, wp ≫= λ id, alive !! id)
                   (observers s))).
Proof.
  unfold Subject_notify. unfold bind at 1, print_line at 1.
  unfold bind at 1. cbn [observers]. rewrite Subject_notify_loop.
  unfold ret. by rewrite app_nil_r.
Qed.

(** X10.  [notify] prints its heading and then exactly one line for every
    attached observer that is still alive, in the order of attachment and
    as many times as the observer was attached; observers that were
    destroyed get nothing.  Its output has one line more than
    [observerCount()]. *)
Theorem Subject_notify_reaches_the_living (message : string)
    (alive : gmap nat ConcreteObserver) (s : Subject) (mem : gmap nat Z) :
  ∃ s',
    Subject_notify message alive s mem =
      Returns s' mem
        ("  Notifying observers..."
         :: ((λ o, "  " +:+ name o +:+ " received: " +:+ message)
               <$> omap (λ wp : option nat, wp ≫= λ id, alive !! id)
                     (observers s))) ∧
    length (omap (λ wp : option nat, wp ≫= λ id, alive !! id) (observers s))
      = Subject_observerCount alive s.
Proof.
  eexists. split; [apply Subject_notify_unfold|apply omap_live_length].
Qed.

Lemma erase_remove_if_filter {A} (pred : A → bool) l :
  erase_remove_if pred l = filter (λ x, pred x = false) l.
Proof.
  induction l as [|x l IH]; [reflexivity|]. simpl.
  destruct (pred x) eqn:Hx.
  - rewrite filter_cons_False by (by rewrite Hx). exact IH.
  - rewrite filter_cons_True by exact Hx. by rewrite IH.
Qed.

(** X11.  [notify] drops the expired observers and nothing else: the list
    it leaves is the list it found without its expired entries, the others
    in their order and as often as they were attached.  So afterwards
    every stored pointer is alive, the stored list is as long as
    [observerCount()], and [observerCount()] is what it was before. *)
Theorem Subject_notify_purges_expired (message : string)
    (alive : gmap nat ConcreteObserver) (s : Subject) (mem : gmap nat Z) :
  ∃ s' out,
    Subject_notify message alive s mem = Returns s' mem out ∧
    observers s' = filter (λ wp, expired wp alive = false) (observers s) ∧
    (∀ wp, wp ∈ observers s' ↔ wp ∈ observers s ∧ expired wp alive = false) ∧
    Forall (λ wp, expired wp alive = false) (observers s') ∧
    length (observers s') = Subject_observerCount alive s ∧
    Subject_observerCount alive s' = Subject_observerCount alive s.
Proof.
  do 2 eexists. split; [apply Subject_notify_unfold|].
  unfold Subject_observerCount. cbn [observers].
  destruct (count_if_erase_remove_if (λ wp, expired wp alive) (observers s))
    as (E1 & E2 & E3).
  split; [apply erase_remove_if_filter|]. split; [|auto].
  intros wp. rewrite erase_remove_if_filter, list_elem_of_filter. tauto.
Qed.

(** X12.  While no observer dies in between, a second [notify] finds
    nothing to drop: it leaves the subject as the first one left it and, for
    the same message, prints the same lines. *)
Theorem Subject_notify_twice (message : string)
    (alive : gmap nat ConcreteObserver) (s : Subject) (mem : gmap nat Z) :
  ∃ s' out,
    Subject_notify message alive s mem = Returns s' mem out ∧
    Subject_notify message alive s' mem = Returns s' mem out.
Proof.
  do 2 eexists. split; [apply Subject_notify_unfold|].
  rewrite Subject_notify_unfold. cbn [observers].
  rewrite omap_live_erase, erase_remove_if_id; [reflexivity|].
  apply count_if_erase_remove_if.
Qed.

(** X13.  [attach] checks nothing: a live observer is appended even when
    it is attached already, it counts once more in [observerCount()], and
    the next [notify] reaches it after all the observers attached before
    it. *)
Theorem Subject_attach_then_notify (message : string)
    (alive : gmap nat ConcreteObserver) (id : nat) (o : ConcreteObserver)
    (s : Subject) (mem : gmap nat Z) :
  alive !! id = Some o →
  ∃ s1 s2,
    Subject_attach (Some id) s mem = Returns s1 mem ["  Observer attached"] ∧
    Subject_observerCount alive s1 = S (Subject_observerCount alive s) ∧
    Subject_notify message alive s1 mem =
      Returns s2 mem
        (["  Notifying observers..."]
         ++ ((λ o, "  " +:+ name o +:+ " received: " +:+ message)
               <$> omap (λ wp : option nat, wp ≫= λ id, alive !! id)
                     (observers s))
         ++ ["  " +:+ name o +:+ " received: " +:+ message]).
Proof.
  intros Ho. do 2 eexists. split; [reflexivity|]. split.
  - unfold Subject_observerCount. cbn [observers].
    rewrite count_if_app. simpl. rewrite Ho. simpl. lia.
  - rewrite Subject_notify_unfold. cbn [observers].
    rewrite omap_app, fmap_app. simpl. rewrite Ho. reflexivity.
Qed.

Lemma Subject_attach_then_notify_witness :
  ∃ s1 s2,
    Subject_attach (Some 1%nat) {| observers := [Some 1%nat; Some 2%nat] |}
      main_memory = Returns s1 main_memory ["  Observer attached"] ∧
    Subject_observerCount {[1%nat := {| name := "Observer1" |}]} s1 =
      S (Subject_observerCount {[1%nat := {| name := "Observer1" |}]}
           {| observers := [Some 1%nat; Some 2%nat] |}) ∧
    Subject_notify "hello" {[1%nat := {| name := "Observer1" |}]} s1 main_memory =
      Returns s2 main_memory
        (["  Notifying observers..."]
         ++ ((λ o, "  " +:+ name o +:+ " received: " +:+ "hello")
               <$> omap (λ wp : option nat,
                           wp ≫= λ id,
                             ({[1%nat := {| name := "Observer1" |}]}
                                : gmap nat ConcreteObserver) !! id)
                     [Some 1%nat; Some 2%nat])
         ++ ["  " +:+ name {| name := "Observer1" |} +:+ " received: "
             +:+ "hello"]).
Proof.
  apply (Subject_attach_then_notify "hello"
           {[1%nat := {| name := "Observer1" |}]} 1
           {| name := "Observer1" |}
           {| observers := [Some 1%nat; Some 2%nat] |} main_memory).
  reflexivity.
Defined.

(** X14.  A null pointer, or a pointer to an observer that is gone, is
    attached all the same, but it is never counted, never notified, and
    the next [notify] drops it: the subject ends as if it had not been
    attached. *)
Theorem Subject_attach_expired (message : string)
    (alive : gmap nat ConcreteObserver) (obs : option nat)
    (s : Subject) (mem : gmap nat Z) :
  expired obs alive = true →
  ∃ s1 s2 out,
    Subject_attach obs s mem = Returns s1 mem ["  Observer attached"] ∧
    observers s1 = observers s ++ [obs] ∧
    Subject_observerCount alive s1 = Subject_observerCount alive s ∧
    Subject_notify message alive s mem = Returns s2 mem out ∧
    Subject_notify message alive s1 mem = Returns s2 mem out.
Proof.
  intros He. do 3 eexists. split; [reflexivity|]. split; [reflexivity|].
  split; [|split; [apply Subject_notify_unfold|]].
  - unfold Subject_observerCount. cbn [observers].
    rewrite count_if_app. simpl. rewrite He. simpl. lia.
  - rewrite Subject_notify_unfold. cbn [observers].
    assert (erase_remove_if (λ wp, expired wp alive) (observers s ++ [obs])
            = erase_remove_if (λ wp, expired wp alive) (observers s)) as ->.
    { induction (observers s) as [|wp l IH]; simpl.
      - by rewrite He.
      - by rewrite IH. }
    rewrite omap_app. simpl.
    assert ((obs ≫= λ id, alive !! id) = None) as ->.
    { destruct obs as [id|]; simpl in *; [|done].
      destruct (alive !! id); [discriminate|done]. }
    by rewrite app_nil_r.
Qed.

Lemma Subject_attach_expired_witness :
  ∃ s1 s2 out,
    Subject_attach None {| observers := [Some 1%nat] |} main_memory =
      Returns s1 main_memory ["  Observer attached"] ∧
    observers s1 = observers {| observers := [Some 1%nat] |} ++ [None] ∧
    Subject_observerCount {[1%nat := {| name := "Observer1" |}]} s1 =
      Subject_observerCount {[1%nat := {| name := "Observer1" |}]}
        {| observers := [Some 1%nat] |} ∧
    Subject_notify "hello" {[1%nat := {| name := "Observer1" |}]}
      {| observers := [Some 1%nat] |} main_memory = Returns s2 main_memory out ∧
    Subject_notify "hello" {[1%nat := {| name := "Observer1" |}]} s1
      main_memory = Returns s2 main_memory out.
Proof.
  apply (Subject_attach_expired "hello"
           {[1%nat := {| name := "Observer1" |}]} None
           {| observers := [Some 1%nat] |} main_memory).
  reflexivity.
Defined.

(** * [TreeNode] *)

Lemma TreeNode_children_ind (P : TreeNode → Prop) :
  (∀ data children parent,
     Forall P children → P (mkTreeNode data children parent)) →
  ∀ t, P t.
Proof.
  intros Hnode. fix IH 1. intros [data children parent]. apply Hnode.
  induction children as [|c cs IHcs]; constructor; [apply IH|exact IHcs].
Qed.

Lemma TreeNode_print_unfold indent data children parent :
  TreeNode_print indent (mkTreeNode data children parent) =
  bind (print_line (spaces (Z.to_nat indent) +:+ data))
    (λ _, for_each (λ child : TreeNode,
                      bind (int_add indent 1)
                        (λ next, TreeNode_print next child)) children).
Proof. reflexivity. Qed.

Lemma spaces_succ indent :
  0 ≤ indent → spaces (Z.to_nat (indent + 1)) = "  " +:+ spaces (Z.to_nat indent).
Proof. intros Hi. by rewrite Z2Nat.inj_add, Nat.add_comm by lia. Qed.

Lemma TreeNode_print_child indent child (mem : gmap nat Z) out :
  representable (indent + 1) = true →
  TreeNode_print (indent + 1) child mem = Returns tt mem out →
  bind (int_add indent 1) (λ next, TreeNode_print next child) mem =
    Returns tt mem out.
Proof.
  intros Hr Hp. unfold bind, int_add, to_int. by rewrite Hr, Hp.
Qed.

(** The children of a node, printed one level below [indent] and two
    levels below it. *)
Lemma TreeNode_print_children indent children (mem : gmap nat Z) :
  Forall (λ child, ∀ i,
            INT_MIN ≤ i →
            i + Z.of_nat (TreeNode_height child) ≤ INT_MAX →
            ∃ out,
              TreeNode_print i child mem = Returns tt mem out ∧
              length out = TreeNode_size child ∧
              (0 ≤ i → i + 1 + Z.of_nat (TreeNode_height child) ≤ INT_MAX →
               TreeNode_print (i + 1) child mem
                 = Returns tt mem (String.append "  " <$> out)))
    children →
  INT_MIN ≤ indent →
  indent + Z.of_nat (foldr (λ c n, Nat.max (S (TreeNode_height c)) n) O children)
    ≤ INT_MAX →
  ∃ out,
    for_each (λ child : TreeNode,
                bind (int_add indent 1) (λ next, TreeNode_print next child))
      children mem = Returns tt mem out ∧
    length out = foldr (λ c n, (TreeNode_size c + n)%nat) O children ∧
    (0 ≤ indent →
     indent + 1
       + Z.of_nat (foldr (λ c n, Nat.max (S (TreeNode_height c)) n) O children)
       ≤ INT_MAX →
     for_each (λ child : TreeNode,
                 bind (int_add (indent + 1) 1)
                   (λ next, TreeNode_print next child))
       children mem = Returns tt mem (String.append "  " <$> out)).
Proof.
  intros Hall Hlo.
  induction Hall as [|c cs Hc _ IH]; intros Hhi.
  - exists []. repeat split; reflexivity.
  - cbn [foldr] in Hhi |- *.
    destruct IH as (outs & Hrest & Hlen & Hdeep); [lia|].
    destruct (Hc (indent + 1)) as (outc & Hchild & Hlenc & Hdeepc); [lia|lia|].
    assert (representable (indent + 1) = true) as Hr1
      by (apply representable_bounds; unfold INT_MIN, INT_MAX in *; lia).
    exists (outc ++ outs). split; [|split].
    + rewrite for_each_cons.
      eapply bind_returns; [by apply TreeNode_print_child|exact Hrest].
    + rewrite length_app. lia.
    + intros H0 Hhi2.
      assert (representable (indent + 1 + 1) = true) as Hr2
        by (apply representable_bounds; unfold INT_MIN, INT_MAX in *; lia).
      rewrite for_each_cons, fmap_app.
      eapply bind_returns; [apply TreeNode_print_child; auto|apply Hdeep; lia].
      apply Hdeepc; lia.
Qed.

Lemma TreeNode_print_levels t : ∀ indent (mem : gmap nat Z),
  INT_MIN ≤ indent →
  indent + Z.of_nat (TreeNode_height t) ≤ INT_MAX →
  ∃ out,
    TreeNode_print indent t mem = Returns tt mem out ∧
    length out = TreeNode_size t ∧
    (0 ≤ indent → indent + 1 + Z.of_nat (TreeNode_height t) ≤ INT_MAX →
     TreeNode_print (indent + 1) t mem
       = Returns tt mem (String.append "  " <$> out)).
Proof.
  induction t as [data children parent IH] using TreeNode_children_ind.
  intros indent mem Hlo Hhi. cbn [TreeNode_height TreeNode_size] in *.
  assert (Forall (λ child, ∀ i,
            INT_MIN ≤ i →
            i + Z.of_nat (TreeNode_height child) ≤ INT_MAX →
            ∃ out,
              TreeNode_print i child mem = Returns tt mem out ∧
              length out = TreeNode_size child ∧
              (0 ≤ i → i + 1 + Z.of_nat (TreeNode_height child) ≤ INT_MAX →
               TreeNode_print (i + 1) child mem
                 = Returns tt mem (String.append "  " <$> out)))
            children) as IH'.
  { eapply Forall_impl; [exact IH|]. intros c Hc i. apply Hc. }
  destruct (TreeNode_print_children indent children mem IH' Hlo Hhi)
    as (outs & Hkids & Hlen & Hdeep).
  exists ((spaces (Z.to_nat indent) +:+ data) :: outs). split; [|split].
  - rewrite TreeNode_print_unfold.
    exact (bind_returns _ _ mem tt mem [_] tt mem outs eq_refl Hkids).
  - simpl. by rewrite Hlen.
  - intros H0 Hhi2. rewrite TreeNode_print_unfold, spaces_succ by assumption.
    exact (bind_returns _ _ mem tt mem [_] tt mem _ eq_refl (Hdeep H0 Hhi2)).
Qed.

(** X15.  [print] writes one line per node of the tree, and nothing else,
    as long as the deepest indentation is still an [int]. *)
Theorem TreeNode_print_one_line_per_node (t : TreeNode) (indent : Z)
    (mem : gmap nat Z) :
  INT_MIN ≤ indent →
  indent + Z.of_nat (TreeNode_height t) ≤ INT_MAX →
  ∃ out,
    TreeNode_print indent t mem = Returns tt mem out ∧
    length out = TreeNode_size t.
Proof.
  intros Hlo Hhi.
  destruct (TreeNode_print_levels t indent mem Hlo Hhi) as (out & E & L & _).
  eauto.
Qed.

Lemma TreeNode_print_one_line_per_node_witness :
  ∃ out,
    TreeNode_print 0
      (mkTreeNode "Root"
         [mkTreeNode "Child1"
            [mkTreeNode "Grandchild1" [] None;
             mkTreeNode "Grandchild2" [] None] None;
          mkTreeNode "Child2" [] None] None) main_memory =
      Returns tt main_memory out ∧
    length out = 5%nat.
Proof.
  apply (TreeNode_print_one_line_per_node
           (mkTreeNode "Root"
              [mkTreeNode "Child1"
                 [mkTreeNode "Grandchild1" [] None;
                  mkTreeNode "Grandchild2" [] None] None;
               mkTreeNode "Child2" [] None] None) 0 main_memory).
  - vm_compute. discriminate.
  - vm_compute. discriminate.
Defined.

(** X16.  Printing a tree one level deeper changes nothing but the
    indentation: every line gets two more spaces in front. *)
Theorem TreeNode_print_one_level_deeper (t : TreeNode) (indent : Z)
    (mem : gmap nat Z) :
  0 ≤ indent →
  indent + 1 + Z.of_nat (TreeNode_height t) ≤ INT_MAX →
  ∃ out,
    TreeNode_print indent t mem = Returns tt mem out ∧
    TreeNode_print (indent + 1) t mem =
      Returns tt mem (String.append "  " <$> out).
Proof.
  intros Hlo Hhi.
  destruct (TreeNode_print_levels t indent mem) as (out & E & _ & D).
  - unfold INT_MIN. lia.
  - lia.
  - eauto.
Qed.

Lemma TreeNode_print_one_level_deeper_witness :
  ∃ out,
    TreeNode_print 0
      (mkTreeNode "Child1"
         [mkTreeNode "Grandchild1" [] None;
          mkTreeNode "Grandchild2" [] None] None) main_memory =
      Returns tt main_memory out ∧
    TreeNode_print (0 + 1)
      (mkTreeNode "Child1"
         [mkTreeNode "Grandchild1" [] None;
          mkTreeNode "Grandchild2" [] None] None) main_memory =
      Returns tt main_memory (String.append "  " <$> out).
Proof.
  apply (TreeNode_print_one_level_deeper
           (mkTreeNode "Child1"
              [mkTreeNode "Grandchild1" [] None;
               mkTreeNode "Grandchild2" [] None] None) 0 main_memory).
  - lia.
  - vm_compute. discriminate.
Defined.

(** X17.  [addChild] puts the new child last: the node has one child
    more, keeps its data, and prints what it printed before followed by the
    new child's subtree one level below it. *)
Theorem TreeNode_addChild_prints_last (child t : TreeNode) (indent : Z)
    (mem : gmap nat Z) :
  TreeNode_childCount (TreeNode_addChild child t) = S (TreeNode_childCount t) ∧
  TreeNode_getData (TreeNode_addChild child t) = TreeNode_getData t ∧
  TreeNode_print indent (TreeNode_addChild child t) mem =
    bind (TreeNode_print indent t)
      (λ _, bind (int_add indent 1) (λ next, TreeNode_print next child)) mem.
Proof.
  destruct t as [data children parent]. cbn [TreeNode_addChild].
  split; [|split; [reflexivity|]].
  - simpl. rewrite length_app. simpl. lia.
  - rewrite !TreeNode_print_unfold, bind_assoc. apply bind_ext.
    intros _ mem'. rewrite for_each_app. apply bind_ext.
    intros _ mem''. rewrite for_each_cons.
    change (for_each _ []) with (@ret unit tt). apply bind_ret_r.
Qed.

(** * [Cache] *)

Lemma count_if_perm {A} (pred : A → bool) l1 l2 :
  l1 ≡ₚ l2 → count_if pred l1 = count_if pred l2.
Proof.
  induction 1 as [|x l1 l2 _ IH|x y l|l1 l2 l3 _ IH1 _ IH2]; simpl;
    [done|by rewrite IH|lia|congruence].
Qed.

Lemma count_if_le {A} (pred : A → bool) l : (count_if pred l ≤ length l)%nat.
Proof. induction l as [|x l IH]; simpl; [lia|]. destruct (pred x); lia. Qed.

Lemma lock_expired {A} (wp : option nat) (alive : gmap nat A) :
  expired wp alive = true → lock wp alive = None.
Proof.
  destruct wp as [id|]; simpl; [|done]. by destruct (alive !! id).
Qed.

Lemma lock_alive {A} (wp : option nat) (alive : gmap nat A) :
  expired wp alive = false →
  ∃ id, wp = Some id ∧ lock wp alive = Some id ∧ is_Some (alive !! id).
Proof.
  destruct wp as [id|]; simpl; [|done].
  destruct (alive !! id) eqn:E; [|done]. intros _. exists id. by rewrite E.
Qed.

Section CacheProperties.
Context `{Countable Key} {Value : Type} (show : Key → string).
Implicit Types (cache : gmap Key (option nat)) (alive : gmap nat Value).

Lemma Cache_size_insert_fresh alive cache key wp :
  cache !! key = None →
  Cache_size alive (<[key:=wp]> cache) =
    ((if expired wp alive then 0 else 1) + Cache_size alive cache)%nat.
Proof.
  intros Hk. unfold Cache_size.
  rewrite (count_if_perm _ _ _ (map_to_list_insert cache key wp Hk)).
  simpl. by destruct (expired wp alive).
Qed.

Lemma Cache_size_delete alive cache key wp :
  cache !! key = Some wp →
  Cache_size alive cache =
    ((if expired wp alive then 0 else 1)
     + Cache_size alive (delete key cache))%nat.
Proof.
  intros Hk. unfold Cache_size.
  rewrite <- (count_if_perm _ _ _ (map_to_list_delete cache key wp Hk)).
  simpl. by destruct (expired wp alive).
Qed.

(** The erasing loop, over any list of entries. *)
Lemma cleanup_loop_none alive (l : list (Key * option nat)) : ∀ cache key,
  cache !! key = None →
  foldl (λ c (pair : Key * option nat),
           if expired pair.2 alive then delete pair.1 c else c) cache l
    !! key = None.
Proof.
  induction l as [|[k wp] l IH]; intros cache key Hk; [done|].
  simpl. apply IH. destruct (expired wp alive); [|done].
  destruct (decide (k = key)) as [->|Hne].
  - apply lookup_delete_eq.
  - by rewrite lookup_delete_ne.
Qed.

Lemma cleanup_loop_expired alive (l : list (Key * option nat)) :
  ∀ cache key wp,
  (key, wp) ∈ l → expired wp alive = true →
  foldl (λ c (pair : Key * option nat),
           if expired pair.2 alive then delete pair.1 c else c) cache l
    !! key = None.
Proof.
  induction l as [|[k w] l IH]; intros cache key wp Hin He.
  - by apply elem_of_nil in Hin.
  - apply elem_of_cons in Hin as [[= <- <-]|Hin]; simpl.
    + rewrite He. apply cleanup_loop_none, lookup_delete_eq.
    + eapply IH; eauto.
Qed.

Lemma cleanup_loop_kept alive (l : list (Key * option nat)) : ∀ cache key,
  (∀ wp, (key, wp) ∈ l → expired wp alive = false) →
  foldl (λ c (pair : Key * option nat),
           if expired pair.2 alive then delete pair.1 c else c) cache l
    !! key = cache !! key.
Proof.
  induction l as [|[k w] l IH]; intros cache key Hall; [done|].
  simpl. rewrite IH.
  - destruct (expired w alive) eqn:He; [|done].
    destruct (decide (k = key)) as [->|Hne].
    + rewrite (Hall w) in He; [done|]. apply elem_of_cons. by left.
    + by rewrite lookup_delete_ne.
  - intros wp Hin. apply Hall, elem_of_cons. by right.
Qed.

Lemma Cache_cleanup_lookup alive cache key :
  Cache_cleanup alive cache !! key =
    match cache !! key with
    | Some wp => if expired wp alive then None else Some wp
    | None => None
    end.
Proof.
  unfold Cache_cleanup. destruct (cache !! key) as [wp|] eqn:Hk.
  - destruct (expired wp alive) eqn:He.
    + eapply cleanup_loop_expired; [|exact He].
      by apply elem_of_map_to_list.
    + rewrite cleanup_loop_kept; [done|].
      intros wp' Hin. apply elem_of_map_to_list in Hin. congruence.
  - by apply cleanup_loop_none.
Qed.

(** Any map that holds exactly the live entries of [cache] has as many
    entries as [cache] has live ones. *)
Lemma live_entries_size alive cache : ∀ kept : gmap Key (option nat),
  (∀ key, kept !! key =
          match cache !! key with
          | Some wp => if expired wp alive then None else Some wp
          | None => None
          end) →
  Cache_size alive kept = Cache_size alive cache ∧
  size kept = Cache_size alive cache.
Proof.
  induction cache as [|k wp cache Hk IH] using map_ind; intros kept Hkept.
  - assert (kept = ∅) as ->.
    { apply map_eq. intros key. rewrite Hkept, !lookup_empty. done. }
    unfold Cache_size. rewrite map_to_list_empty, map_size_empty. done.
  - rewrite (Cache_size_insert_fresh _ _ _ _ Hk).
    destruct (expired wp alive) eqn:He.
    + apply IH. intros key. rewrite Hkept.
      destruct (decide (k = key)) as [->|Hne].
      * by rewrite lookup_insert_eq, He, Hk.
      * by rewrite lookup_insert_ne.
    + assert (kept !! k = Some wp) as Hkk
        by (by rewrite Hkept, lookup_insert_eq, He).
      destruct (IH (delete k kept)) as [E1 E2].
      { intros key. destruct (decide (k = key)) as [->|Hne].
        - by rewrite lookup_delete_eq, Hk.
        - by rewrite lookup_delete_ne, Hkept, lookup_insert_ne. }
      rewrite (Cache_size_delete alive kept k wp Hkk), He, E1.
      rewrite <- E2, (map_size_delete_Some k kept) by eauto.
      assert (size kept ≠ 0%nat)
        by (apply map_size_non_empty_iff; intros ->; by rewrite lookup_empty in Hkk).
      split; lia.
Qed.
End CacheProperties.

Section CacheTheorems.
Context `{Countable Key} {Value : Type} (show : Key → string).
Implicit Types (cache : gmap Key (option nat)) (alive : gmap nat Value).

(** X18.  What was [put] is what [get] returns, as long as the object is
    still alive: [get] after [put] on the same key is a hit on the very
    pointer that was stored, whatever the key held before, and [get] leaves
    the cache as [put] left it. *)
Theorem Cache_get_after_put (key : Key) (id : nat) (v : Value) alive cache
    (mem : gmap nat Z) :
  alive !! id = Some v →
  bind (Cache_put show key (Some id) cache)
       (Cache_get show key alive) mem =
    Returns (Some id, <[key:=Some id]> cache) mem
      ["  Cached key: " +:+ show key; "  Cache hit for key: " +:+ show key].
Proof.
  intros Hv. unfold bind at 1, Cache_put, bind at 1, print_line at 1, ret at 1.
  unfold Cache_get. rewrite lookup_insert_eq. simpl. rewrite Hv. reflexivity.
Qed.

(** X19.  [get] on a key whose object has died returns a null pointer,
    erases the entry and reports both the expiry and the miss; asked again,
    it only reports a miss and changes nothing. *)
Theorem Cache_get_expired (key : Key) (wp : option nat) alive cache
    (mem : gmap nat Z) :
  cache !! key = Some wp → expired wp alive = true →
  Cache_get show key alive cache mem =
    Returns (None, delete key cache) mem
      ["  Cache expired for key: " +:+ show key;
       "  Cache miss for key: " +:+ show key] ∧
  Cache_get show key alive (delete key cache) mem =
    Returns (None, delete key cache) mem
      ["  Cache miss for key: " +:+ show key].
Proof.
  intros Hk He. unfold Cache_get.
  rewrite Hk, (lock_expired _ _ He), lookup_delete_eq. split; reflexivity.
Qed.

(** X20.  [get] always returns, and never hands out a dead object: a
    non-null result is the stored pointer of that key, its object is
    alive, and the cache is unchanged.  The only entry [get] may erase is
    the expired entry of the key it was asked for, so [size()] is the same
    before and after. *)
Theorem Cache_get_is_safe (key : Key) alive cache (mem : gmap nat Z) :
  ∃ result cache' out,
    Cache_get show key alive cache mem = Returns (result, cache') mem out ∧
    (∀ id, result = Some id →
           cache !! key = Some (Some id) ∧ is_Some (alive !! id) ∧
           cache' = cache) ∧
    (∀ other, other ≠ key → cache' !! other = cache !! other) ∧
    Cache_size alive cache' = Cache_size alive cache.
Proof.
  unfold Cache_get. destruct (cache !! key) as [wp|] eqn:Hk.
  - destruct (expired wp alive) eqn:He.
    + rewrite (lock_expired _ _ He). do 3 eexists. split; [reflexivity|].
      split; [done|]. split.
      * intros other Hne. by rewrite lookup_delete_ne.
      * by rewrite (Cache_size_delete alive cache key wp Hk), He.
    + destruct (lock_alive _ _ He) as (id & -> & -> & Hal).
      do 3 eexists. split; [reflexivity|]. split; [|done].
      by intros ? [= <-].
  - do 3 eexists. split; [reflexivity|]. done.
Qed.

(** X21.  [cleanup] erases exactly the expired entries: afterwards a key is
    in the cache if and only if it was there with a live object, and then
    with the same pointer. *)
Theorem Cache_cleanup_keeps_the_living (key : Key) alive cache :
  Cache_cleanup alive cache !! key =
    match cache !! key with
    | Some wp => if expired wp alive then None else Some wp
    | None => None
    end ∧
  (∀ wp, Cache_cleanup alive cache !! key = Some wp →
         expired wp alive = false ∧ cache !! key = Some wp).
Proof.
  split; [apply Cache_cleanup_lookup|].
  intros wp. rewrite Cache_cleanup_lookup.
  destruct (cache !! key) as [wp'|]; [|done].
  destruct (expired wp' alive) eqn:He; [done|]. by intros [= <-].
Qed.

(** X22.  [size()] counts the live entries only, so it never exceeds the
    number of stored entries and [cleanup] does not change it; after
    [cleanup] the two numbers agree. *)
Theorem Cache_cleanup_size alive cache :
  (Cache_size alive cache ≤ size cache)%nat ∧
  Cache_size alive (Cache_cleanup alive cache) = Cache_size alive cache ∧
  size (Cache_cleanup alive cache) = Cache_size alive cache.
Proof.
  split.
  - unfold Cache_size. rewrite <- length_map_to_list. apply count_if_le.
  - apply live_entries_size. intros key. apply Cache_cleanup_lookup.
Qed.

(** X23.  [cleanup] done twice is [cleanup] done once, and on a cache that
    was just cleaned up [get] never finds an expired entry: it leaves the
    cache alone and prints a single line, a hit or a miss. *)
Theorem Cache_get_after_cleanup (key : Key) alive cache (mem : gmap nat Z) :
  Cache_cleanup alive (Cache_cleanup alive cache) = Cache_cleanup alive cache ∧
  ∃ result out,
    Cache_get show key alive (Cache_cleanup alive cache) mem =
      Returns (result, Cache_cleanup alive cache) mem out ∧
    length out = 1%nat.
Proof.
  split.
  - apply map_eq. intros k. rewrite !Cache_cleanup_lookup.
    destruct (cache !! k) as [wp|]; [|done].
    destruct (expired wp alive) eqn:He; [done|]. by rewrite He.
  - unfold Cache_get. rewrite Cache_cleanup_lookup.
    destruct (cache !! key) as [wp|]; [|by do 2 eexists].
    destruct (expired wp alive) eqn:He; [by do 2 eexists|].
    destruct (lock_alive _ _ He) as (id & -> & -> & _). by do 2 eexists.
Qed.
End CacheTheorems.

(** The cache of [main], keyed and valued by strings. *)
Lemma Cache_get_after_put_witness :
  bind (Cache_put id "key1" (Some 1%nat) ∅)
       (Cache_get id "key1" ({[1%nat := "Value1"]} : gmap nat string))
    main_memory =
    Returns (Some 1%nat, <["key1":=Some 1%nat]> ∅) main_memory
      ["  Cached key: " +:+ "key1"; "  Cache hit for key: " +:+ "key1"].
Proof.
  apply (Cache_get_after_put id "key1" 1 "Value1"
           ({[1%nat := "Value1"]} : gmap nat string) ∅ main_memory).
  reflexivity.
Defined.

Lemma Cache_get_expired_witness :
  Cache_get id "key1" (∅ : gmap nat string) {["key1" := Some 1%nat]}
    main_memory =
    Returns (None, delete "key1" {["key1" := Some 1%nat]}) main_memory
      ["  Cache expired for key: " +:+ "key1";
       "  Cache miss for key: " +:+ "key1"] ∧
  Cache_get id "key1" (∅ : gmap nat string)
    (delete "key1" {["key1" := Some 1%nat]}) main_memory =
    Returns (None, delete "key1" {["key1" := Some 1%nat]}) main_memory
      ["  Cache miss for key: " +:+ "key1"].
Proof.
  apply (Cache_get_expired id "key1" (Some 1%nat) (∅ : gmap nat string)
           {["key1" := Some 1%nat]} main_memory).
  - reflexivity.
  - reflexivity.
Defined.
